(** * The chained key-value store of [pkg/kvstore] (gosoline)

    A shallow embedding of [ChainKvStore]: an ordered chain of backing stores
    behind one logical store, with an optional cache of keys known to be
    missing.  The backing stores are only known through the [KvStore]
    interface, so they are a type class here; every call to a store, to the
    missing-value cache or to the logger is recorded as an [Event], which is
    what the ordering and "no store was touched" properties talk about. *)

From stdpp Require Import base list strings gmap pretty.
From Stdlib Require Import ZArith.

Local Open Scope Z_scope.

(** ** Dynamic values

    Go passes keys, values and containers as [interface{}].  Two kinds of keys
    are enough to tell a caller's key from its string form. *)

Inductive Key :=
| KStr (s : string)
| KInt (z : Z).

#[global] Instance Key_eq_dec : EqDecision Key.
Proof. solve_decision. Defined.

Definition Key_to_sum (k : Key) : string + Z :=
  match k with KStr s => inl s | KInt z => inr z end.

Definition Key_of_sum (x : string + Z) : Key :=
  match x with inl s => KStr s | inr z => KInt z end.

#[global] Instance Key_countable : Countable Key.
Proof. by apply (inj_countable' Key_to_sum Key_of_sum); intros []. Defined.

#[global] Instance KStr_inj : Inj (=) (=) KStr.
Proof. by intros s1 s2 [= ->]. Qed.

(** [VNoValue] is the private marker [noValue = &struct{}{}]. *)
Inductive Value :=
| VNil
| VData (z : Z)
| VNoValue.

#[global] Instance Value_eq_dec : EqDecision Value.
Proof. solve_decision. Defined.

Definition noValue : Value := VNoValue.

(** What a caller may hand over as [keys] or [values]. *)
Inductive Payload :=
| PMap (m : gmap Key Value)        (* map[interface{}]interface{} and maps alike *)
| PStrMap (m : gmap string Value)  (* map[string]interface{} *)
| PSlice (l : list Key)            (* []interface{} and slices alike *)
| PScalar (v : Value).             (* anything that is neither *)

#[global] Instance Payload_eq_dec : EqDecision Payload.
Proof. solve_decision. Defined.

(** A callee receives the caller's container by reference: it can change the
    entries of a map, it cannot turn the caller's container into one of
    another kind. *)
Definition mutated (caller callee : Payload) : Payload :=
  match caller, callee with
  | PMap _, PMap m => PMap m
  | PStrMap _, PStrMap m => PStrMap m
  | _, _ => caller
  end.

(** ** Errors and log lines

    [Msg] lists the format strings of the file, with the arguments that
    identify the key and the store (the position in the chain stands for
    [%T]). *)

Inductive Msg :=
| FailedToReadMissingCache
| FailedToWriteMissingCache
| CouldNotCheckExistence (key : Key) (element : nat)
| CouldNotGet (key : Key) (element : nat)
| CouldNotPut (key : Key) (element : nat)
| CanNotMorphKeys
| CouldNotGetBatch (element : nat)
| CanNotCastResultValues
| CouldNotPutBatch (element : nat)
| CouldNotPutBatchToEmptyValueCache
| CouldNotEraseCachedEmptyValue (key : Key)
| CanNotCastValues.

Inductive error :=
| External (msg : string)              (* raised by a store or by refl *)
| Errorf (m : Msg) (cause : error).    (* fmt.Errorf("...: %w", err) *)

#[global] Instance Msg_eq_dec : EqDecision Msg.
Proof. solve_decision. Defined.

#[global] Instance error_eq_dec : EqDecision error.
Proof. solve_decision. Defined.

Inductive Event :=
| EvContains (element : nat) (key : Key) (found : bool) (err : option error)
| EvGet (element : nat) (key : Key) (value : Value) (found : bool) (err : option error)
| EvGetBatch (element : nat) (todo : list Key) (values : Payload)
    (missing : list Key) (err : option error)
| EvPut (element : nat) (key : Key) (value : Value) (err : option error)
| EvPutBatch (element : nat) (values : Payload) (err : option error)
| EvMissingContains (key : Key) (found : bool) (err : option error)
| EvMissingGetBatch (todo : list Key) (values : Payload)
    (missing : list Key) (err : option error)
| EvMissingPut (key : Key) (value : Value) (err : option error)
| EvMissingPutBatch (values : Payload) (err : option error)
| EvMissingDelete (key : Key) (err : option error)
| Warnf (m : Msg) (cause : error).

#[global] Instance Event_eq_dec : EqDecision Event.
Proof. solve_decision. Defined.

(** [if err != nil { logger.Warnf(msg, err) }] *)
Definition warnIf (m : Msg) (err : option error) : list Event :=
  match err with
  | Some e => [Warnf m e]
  | None => []
  end.

(** An event is a call to a store of the chain. *)
Definition touchesTier (e : Event) : bool :=
  match e with
  | EvContains _ _ _ _ | EvGet _ _ _ _ _ | EvGetBatch _ _ _ _ _
  | EvPut _ _ _ _ | EvPutBatch _ _ _ => true
  | _ => false
  end.

(** An event is a write to a store of the chain. *)
Definition writesTier (e : Event) : bool :=
  match e with
  | EvPut _ _ _ _ | EvPutBatch _ _ _ => true
  | _ => false
  end.

(** An event is a call to the missing-value cache. *)
Definition touchesMissingCache (e : Event) : bool :=
  match e with
  | EvMissingContains _ _ _ | EvMissingGetBatch _ _ _ _ | EvMissingPut _ _ _
  | EvMissingPutBatch _ _ | EvMissingDelete _ _ => true
  | _ => false
  end.

(** An event is a write to the missing-value cache. *)
Definition writesMissingCache (e : Event) : bool :=
  match e with
  | EvMissingPut _ _ _ | EvMissingPutBatch _ _ | EvMissingDelete _ _ => true
  | _ => false
  end.

(** ** The [KvStore] interface

    A store is a state [T] with the interface's methods.  A method returns the
    state after the call next to its Go results; [Get] also returns the
    destination and [GetBatch] the values container as the store left them. *)

Class KvStore (T : Type) := {
  Contains : T → Key → T * bool * option error;
  Get : T → Key → Value → T * Value * bool * option error;
  GetBatch : T → list Key → Payload → T * Payload * list Key * option error;
  Put : T → Key → Value → T * option error;
  PutBatch : T → Payload → T * option error;
  Delete : T → Key → T * option error;
}.

(** ** Reflection helpers *)

(** Modelled from the spec: [refl.InterfaceToInterfaceSlice] is not part of
    the sources; it normalizes the caller's keys into an ordered sequence and
    fails when they are not iterable. *)
Definition InterfaceToInterfaceSlice (keys : Payload) : list Key * option error :=
  match keys with
  | PSlice l => (l, None)
  | _ => ([], Some (External "input is not a slice"))
  end.

(** Modelled from the spec: [refl.InterfaceToMapInterfaceInterface] is not
    part of the sources; it normalizes the caller's values into a keyed map
    and fails when they are not keyed. *)
Definition InterfaceToMapInterfaceInterface (values : Payload)
  : gmap Key Value * option error :=
  match values with
  | PMap m => (m, None)
  | PStrMap m => (kmap KStr m, None)
  | _ => (∅, Some (External "input is not a map"))
  end.

(** ** The engine *)

Record ChainKvStore (T C : Type) := {
  chain : list T;
  missingCacheEnabled : bool;
  missingCache : C;
}.

Arguments chain {T C} _.
Arguments missingCacheEnabled {T C} _.
Arguments missingCache {T C} _.

(** How the chain walk of [Get] ended. *)
Inductive GetWalk :=
| GetFailed (err : error)
| GetFound (foundInIndex : nat)
| GetAbsent.

(** How the chain walk of [GetBatch] ended. *)
Inductive BatchWalk :=
| BatchFailed (err : error)
| BatchWalked (todo : list Key) (refill : gmap nat (list Key)) (foundInIndex : nat).

Section Engine.
Context {T C : Type} {tierStore : KvStore T} {cacheStore : KvStore C}.

Definition NewChainKvStoreWithInterfaces (missingCacheEnabled : bool)
    (missingCache : C) : ChainKvStore T C :=
  {| chain := []; missingCacheEnabled := missingCacheEnabled;
     missingCache := missingCache |}.

Definition AddStore (s : ChainKvStore T C) (store : T) : ChainKvStore T C :=
  {| chain := s.(chain) ++ [store];
     missingCacheEnabled := s.(missingCacheEnabled);
     missingCache := s.(missingCache) |}.

Definition withChain (s : ChainKvStore T C) (elements : list T) : ChainKvStore T C :=
  {| chain := elements; missingCacheEnabled := s.(missingCacheEnabled);
     missingCache := s.(missingCache) |}.

Definition withMissingCache (s : ChainKvStore T C) (cache : C) : ChainKvStore T C :=
  {| chain := s.(chain); missingCacheEnabled := s.(missingCacheEnabled);
     missingCache := cache |}.

(** [lastElementIndex := len(s.chain) - 1], an [int]: -1 for the empty chain. *)
Definition lastElementIndexOf (elements : list T) : Z :=
  Z.of_nat (length elements) - 1.

(** The short circuit at the head of [Contains] and [Get]:
    [exists, err := s.missingCache.Contains(ctx, key)], the warning, and
    [exists] for the caller's [if exists { return false, nil }]. *)
Definition missingCacheContains (cache : C) (key : Key) : C * list Event * bool :=
  let '(cache', found, err) := Contains cache key in
  (cache', EvMissingContains key found err :: warnIf FailedToReadMissingCache err, found).

(** [s.missingCache.Put(ctx, key, noValue)] with its warning. *)
Definition missingCachePut (cache : C) (key : Key) : C * list Event :=
  let '(cache', err) := Put cache key noValue in
  (cache', EvMissingPut key noValue err :: warnIf FailedToWriteMissingCache err).

(** [s.missingCache.Delete(ctx, key)] with its warning. *)
Definition missingCacheDelete (cache : C) (key : Key) : C * list Event :=
  let '(cache', err) := Delete cache key in
  (cache', EvMissingDelete key err :: warnIf (CouldNotEraseCachedEmptyValue key) err).

(** *** Contains *)

(** [for i, element := range s.chain] of [Contains], from position [i] on.
    [Some r] is a [return r] inside the loop, [None] is the loop running to
    its end. *)
Fixpoint containsWalk (key : Key) (lastElementIndex : Z) (i : nat) (elements : list T)
  : list T * list Event * option (bool * option error) :=
  match elements with
  | [] => ([], [], None)
  | element :: rest =>
      let '(element', found, err) := Contains element key in
      let call := EvContains i key found err in
      match err, Z.of_nat i =? lastElementIndex with
      | Some e, true =>
          (element' :: rest, [call],
           Some (false, Some (Errorf (CouldNotCheckExistence key i) e)))
      | _, _ =>
          let log := call :: warnIf (CouldNotCheckExistence key i) err in
          if found then (element' :: rest, log, Some (true, None))
          else
            let '(rest', evs, r) := containsWalk key lastElementIndex (S i) rest in
            (element' :: rest', log ++ evs, r)
      end
  end.

Definition ChainKvStore_Contains (s : ChainKvStore T C) (key : Key)
  : ChainKvStore T C * list Event * (bool * option error) :=
  let lastElementIndex := lastElementIndexOf s.(chain) in
  let '(cache1, log1, cached) :=
    if s.(missingCacheEnabled) then missingCacheContains s.(missingCache) key
    else (s.(missingCache), [], false) in
  if cached then (withMissingCache s cache1, log1, (false, None))
  else
    let '(elements, log2, r) := containsWalk key lastElementIndex 0 s.(chain) in
    let s2 := withChain (withMissingCache s cache1) elements in
    match r with
    | Some r => (s2, log1 ++ log2, r)
    | None =>
        let '(cache3, log3) :=
          if s.(missingCacheEnabled) then missingCachePut cache1 key
          else (cache1, []) in
        (withMissingCache s2 cache3, log1 ++ log2 ++ log3, (false, None))
    end.

(** *** Get *)

(** [for i, element := range s.chain] of [Get], from position [i] on; the
    destination [value] is threaded through the stores. *)
Fixpoint getWalk (key : Key) (value : Value) (lastElementIndex : Z) (i : nat)
    (elements : list T) : list T * list Event * Value * GetWalk :=
  match elements with
  | [] => ([], [], value, GetAbsent)
  | element :: rest =>
      let '(element', value', found, err) := Get element key value in
      let call := EvGet i key value' found err in
      match err, Z.of_nat i =? lastElementIndex with
      | Some e, true =>
          (element' :: rest, [call], value', GetFailed (Errorf (CouldNotGet key i) e))
      | _, _ =>
          let log := call :: warnIf (CouldNotGet key i) err in
          if found then (element' :: rest, log, value', GetFound i)
          else
            let '(rest', evs, value'', r) :=
              getWalk key value' lastElementIndex (S i) rest in
            (element' :: rest', log ++ evs, value'', r)
      end
  end.

(** [for i := foundInIndex - 1; i >= 0; i--] of [Get]: the stores in front
    of the one that had the key, nearest first.  [s.chain[i]] is in range
    because [foundInIndex] is at most the length of the chain. *)
Fixpoint propagatePut (key : Key) (value : Value) (foundInIndex : nat)
    (elements : list T) : list T * list Event :=
  match foundInIndex with
  | O => (elements, [])
  | S i =>
      match elements !! i with
      | Some element =>
          let '(element', err) := Put element key value in
          let '(elements', evs) := propagatePut key value i (<[i := element']> elements) in
          (elements', EvPut i key value err :: warnIf (CouldNotPut key i) err ++ evs)
      | None => (elements, [])
      end
  end.

Definition ChainKvStore_Get (s : ChainKvStore T C) (key : Key) (value : Value)
  : ChainKvStore T C * Value * list Event * (bool * option error) :=
  let '(cache1, log1, cached) :=
    if s.(missingCacheEnabled) then missingCacheContains s.(missingCache) key
    else (s.(missingCache), [], false) in
  if cached then (withMissingCache s cache1, value, log1, (false, None))
  else
    let lastElementIndex := lastElementIndexOf s.(chain) in
    let '(elements, log2, value', r) := getWalk key value lastElementIndex 0 s.(chain) in
    let s2 := withChain (withMissingCache s cache1) elements in
    match r with
    | GetFailed err => (s2, value', log1 ++ log2, (false, Some err))
    | GetAbsent =>
        let '(cache3, log3) :=
          if s.(missingCacheEnabled) then missingCachePut cache1 key
          else (cache1, []) in
        (withMissingCache s2 cache3, value', log1 ++ log2 ++ log3, (false, None))
    | GetFound foundInIndex =>
        let '(elements', log3) := propagatePut key value' foundInIndex elements in
        (withChain s2 elements', value', log1 ++ log2 ++ log3, (true, None))
    end.

(** *** GetBatch *)

(** [for k := range cachedMissingMap { cachedMissing = append(cachedMissing, k) }]:
    the keys of a [map[string]interface{}] are strings.  Go leaves the order
    of the iteration open; the model takes the map's own order. *)
Definition rangeKeys (cachedMissingMap : Payload) : list Key :=
  match cachedMissingMap with
  | PStrMap m => KStr <$> (map_to_list m).*1
  | _ => []
  end.

(** The block [if s.missingCacheEnabled { ... }] of [GetBatch]: the cache is
    asked with a fresh [map[string]interface{}]; the result is the events, the
    [todo] the cache returned and [cachedMissing]. *)
Definition missingCacheGetBatch (cache : C) (todo : list Key)
  : C * list Event * list Key * list Key :=
  let cachedMissingMap := PStrMap ∅ in
  let '(cache', out, todo', err) := GetBatch cache todo cachedMissingMap in
  let cachedMissingMap' := mutated cachedMissingMap out in
  (cache',
   EvMissingGetBatch todo cachedMissingMap' todo' err
     :: warnIf FailedToReadMissingCache err,
   todo', rangeKeys cachedMissingMap').

(** [for i, element := range s.chain] of [GetBatch], from position [i] on. *)
Fixpoint batchWalk (lastElementIndex : Z) (i : nat) (elements : list T)
    (todo : list Key) (values : Payload) (refill : gmap nat (list Key))
  : list T * list Event * Payload * BatchWalk :=
  match elements with
  | [] => ([], [], values, BatchWalked todo refill (Z.to_nat (lastElementIndex + 1)))
  | element :: rest =>
      let '(element', out, missing, err) := GetBatch element todo values in
      let values' := mutated values out in
      let call := EvGetBatch i todo values' missing err in
      match err, Z.of_nat i =? lastElementIndex with
      | Some e, true =>
          (element' :: rest, [call], values', BatchFailed (Errorf (CouldNotGetBatch i) e))
      | _, _ =>
          let refill_i := match err with Some _ => todo | None => missing end in
          let refill' := <[i := refill_i]> refill in
          let log := call :: warnIf (CouldNotGetBatch i) err in
          let todo' := refill_i in
          if (length todo' =? 0)%nat
          then (element' :: rest, log, values', BatchWalked todo' refill' i)
          else
            let '(rest', evs, values'', r) :=
              batchWalk lastElementIndex (S i) rest todo' values' refill' in
            (element' :: rest', log ++ evs, values'', r)
      end
  end.

(** [for _, key := range refill[i] { if val, ok := mii[key]; ok { missingInElement[key] = val } }] *)
Definition missingInElementOf (mii : gmap Key Value) (keys : list Key) : gmap Key Value :=
  foldl (λ acc key,
           match mii !! key with
           | Some val => <[key := val]> acc
           | None => acc
           end) ∅ keys.

(** [for i := foundInIndex - 1; i >= 0; i--] of [GetBatch]. *)
Fixpoint propagateBatch (mii : gmap Key Value) (refill : gmap nat (list Key))
    (foundInIndex : nat) (elements : list T) : list T * list Event :=
  match foundInIndex with
  | O => (elements, [])
  | S i =>
      let keys := default [] (refill !! i) in
      if (length keys =? 0)%nat then propagateBatch mii refill i elements
      else
        let missingInElement := missingInElementOf mii keys in
        if (size missingInElement =? 0)%nat then propagateBatch mii refill i elements
        else
          match elements !! i with
          | Some element =>
              let '(element', err) := PutBatch element (PMap missingInElement) in
              let '(elements', evs) :=
                propagateBatch mii refill i (<[i := element']> elements) in
              (elements',
               EvPutBatch i (PMap missingInElement) err
                 :: warnIf (CouldNotPutBatch i) err ++ evs)
          | None => (elements, [])
          end
  end.

(** [for _, key := range todo { missingValues[key] = noValue }] *)
Definition missingValuesOf (todo : list Key) : gmap Key Value :=
  foldl (λ acc key, <[key := noValue]> acc) ∅ todo.

(** [s.missingCache.PutBatch(ctx, missingValues)] with its warning. *)
Definition missingCachePutBatch (cache : C) (todo : list Key) : C * list Event :=
  let missingValues := PMap (missingValuesOf todo) in
  let '(cache', err) := PutBatch cache missingValues in
  (cache', EvMissingPutBatch missingValues err
             :: warnIf CouldNotPutBatchToEmptyValueCache err).

(** The head of [GetBatch] after the keys were normalized: with the cache
    disabled [todo] stays as it is and [cachedMissing] stays [nil]. *)
Definition cachedLookup (s : ChainKvStore T C) (todo : list Key)
  : C * list Event * list Key * list Key :=
  if s.(missingCacheEnabled) then missingCacheGetBatch s.(missingCache) todo
  else (s.(missingCache), [], todo, []).

(** The [todo] that is left when the chain walk of [GetBatch] is over, for
    the [todo] the walk starts with ([nil] when the walk fails). *)
Definition stillMissing (s : ChainKvStore T C) (todo : list Key) (values : Payload)
  : list Key :=
  if (length todo =? 0)%nat then todo
  else
    match batchWalk (lastElementIndexOf s.(chain)) 0 s.(chain) todo values ∅ with
    | (_, _, _, BatchWalked todo' _ _) => todo'
    | (_, _, _, BatchFailed _) => []
    end.

Definition ChainKvStore_GetBatch (s : ChainKvStore T C) (keys values : Payload)
  : ChainKvStore T C * Payload * list Event * (list Key * option error) :=
  let '(todo, err) := InterfaceToInterfaceSlice keys in
  match err with
  | Some e => (s, values, [], ([], Some (Errorf CanNotMorphKeys e)))
  | None =>
      let '(cache1, log1, todo1, cachedMissing) := cachedLookup s todo in
      let s1 := withMissingCache s cache1 in
      if (length todo1 =? 0)%nat then (s1, values, log1, (cachedMissing, None))
      else
        let lastElementIndex := lastElementIndexOf s.(chain) in
        let '(elements, log2, values2, r) :=
          batchWalk lastElementIndex 0 s.(chain) todo1 values ∅ in
        let s2 := withChain s1 elements in
        match r with
        | BatchFailed e => (s2, values2, log1 ++ log2, ([], Some e))
        | BatchWalked todo2 refill foundInIndex =>
            let '(mii, err) := InterfaceToMapInterfaceInterface values2 in
            match err with
            | Some e =>
                (s2, values2, log1 ++ log2,
                 ([], Some (Errorf CanNotCastResultValues e)))
            | None =>
                let '(elements3, log3) :=
                  propagateBatch mii refill foundInIndex elements in
                let '(cache4, log4) :=
                  if s.(missingCacheEnabled) && (0 <? length todo2)%nat
                  then missingCachePutBatch cache1 todo2
                  else (cache1, []) in
                (withMissingCache (withChain s2 elements3) cache4, values2,
                 log1 ++ log2 ++ log3 ++ log4, (todo2 ++ cachedMissing, None))
            end
        end
  end.

(** *** Put and PutBatch *)

(** [for i := 0; i <= lastElementIndex; i++] of [Put], from position [i] on:
    [s.chain[i]] is the head of the remaining chain. *)
Fixpoint putWalk (key : Key) (value : Value) (lastElementIndex : Z) (i : nat)
    (elements : list T) : list T * list Event * option error :=
  match elements with
  | [] => ([], [], None)
  | element :: rest =>
      let '(element', err) := Put element key value in
      let call := EvPut i key value err in
      match err, Z.of_nat i =? lastElementIndex with
      | Some e, true => (element' :: rest, [call], Some (Errorf (CouldNotPut key i) e))
      | _, _ =>
          let '(rest', evs, r) := putWalk key value lastElementIndex (S i) rest in
          (element' :: rest', call :: warnIf (CouldNotPut key i) err ++ evs, r)
      end
  end.

Definition ChainKvStore_Put (s : ChainKvStore T C) (key : Key) (value : Value)
  : ChainKvStore T C * list Event * option error :=
  let lastElementIndex := lastElementIndexOf s.(chain) in
  let '(elements, log1, r) := putWalk key value lastElementIndex 0 s.(chain) in
  let s1 := withChain s elements in
  match r with
  | Some e => (s1, log1, Some e)
  | None =>
      let '(cache2, log2) :=
        if s.(missingCacheEnabled) then missingCacheDelete s.(missingCache) key
        else (s.(missingCache), []) in
      (withMissingCache s1 cache2, log1 ++ log2, None)
  end.

(** [for i := 0; i <= lastElementIndex; i++] of [PutBatch], from position [i] on. *)
Fixpoint putBatchWalk (values : Payload) (lastElementIndex : Z) (i : nat)
    (elements : list T) : list T * list Event * option error :=
  match elements with
  | [] => ([], [], None)
  | element :: rest =>
      let '(element', err) := PutBatch element values in
      let call := EvPutBatch i values err in
      match err, Z.of_nat i =? lastElementIndex with
      | Some e, true => (element' :: rest, [call], Some (Errorf (CouldNotPutBatch i) e))
      | _, _ =>
          let '(rest', evs, r) := putBatchWalk values lastElementIndex (S i) rest in
          (element' :: rest', call :: warnIf (CouldNotPutBatch i) err ++ evs, r)
      end
  end.

(** [for key := range mii { s.missingCache.Delete(ctx, key) }] *)
Fixpoint eraseAll (cache : C) (keys : list Key) : C * list Event :=
  match keys with
  | [] => (cache, [])
  | key :: rest =>
      let '(cache', log) := missingCacheDelete cache key in
      let '(cache'', evs) := eraseAll cache' rest in
      (cache'', log ++ evs)
  end.

Definition ChainKvStore_PutBatch (s : ChainKvStore T C) (values : Payload)
  : ChainKvStore T C * list Event * option error :=
  let lastElementIndex := lastElementIndexOf s.(chain) in
  let '(elements, log1, r) := putBatchWalk values lastElementIndex 0 s.(chain) in
  let s1 := withChain s elements in
  match r with
  | Some e => (s1, log1, Some e)
  | None =>
      if s.(missingCacheEnabled) then
        let '(mii, err) := InterfaceToMapInterfaceInterface values in
        match err with
        | Some e => (s1, log1, Some (Errorf CanNotCastValues e))
        | None =>
            let '(cache2, log2) := eraseAll s.(missingCache) (map_to_list mii).*1 in
            (withMissingCache s1 cache2, log1 ++ log2, None)
        end
      else (s1, log1, None)
  end.

End Engine.

(** A key has an entry in the container, read the way the engine reads it. *)
Definition populated (values : Payload) (k : Key) : Prop :=
  is_Some ((InterfaceToMapInterfaceInterface values).1 !! k).

(** ** Stores to run the engine on *)

(** Whether a store answers, answers reads only, or fails every call. *)
Inductive Mode :=
| Healthy
| ReadOnly
| Failing.

(** Modelled from the spec: the in-memory store ([InMemoryKvStore]) is not
    part of the sources.  It is an in-process keyed store whose keys are the
    string forms of the caller's keys; [GetBatch] writes what it finds into
    the destination map and returns the keys it did not find. *)
Record MemStore := {
  entries : gmap string Value;
  mode : Mode;
}.

Definition CastKeyToString (key : Key) : string :=
  match key with
  | KStr s => s
  | KInt z => pretty z
  end.

Definition unavailable : error := External "store unavailable".

Definition withEntries (st : MemStore) (m : gmap string Value) : MemStore :=
  {| entries := m; mode := st.(mode) |}.

(** [destination[key] = value] on the caller's container. *)
Definition payloadSet (values : Payload) (key : Key) (value : Value) : Payload :=
  match values with
  | PMap m => PMap (<[key := value]> m)
  | PStrMap m => PStrMap (<[CastKeyToString key := value]> m)
  | _ => values
  end.

Definition MemStore_Contains (st : MemStore) (key : Key) : MemStore * bool * option error :=
  match st.(mode) with
  | Failing => (st, false, Some unavailable)
  | _ => (st, bool_decide (is_Some (st.(entries) !! CastKeyToString key)), None)
  end.

Definition MemStore_Get (st : MemStore) (key : Key) (value : Value)
  : MemStore * Value * bool * option error :=
  match st.(mode) with
  | Failing => (st, value, false, Some unavailable)
  | _ =>
      match st.(entries) !! CastKeyToString key with
      | Some v => (st, v, true, None)
      | None => (st, value, false, None)
      end
  end.

Fixpoint MemStore_getChunk (m : gmap string Value) (keys : list Key) (values : Payload)
  : Payload * list Key :=
  match keys with
  | [] => (values, [])
  | key :: rest =>
      match m !! CastKeyToString key with
      | Some v => MemStore_getChunk m rest (payloadSet values key v)
      | None =>
          let '(values', missing) := MemStore_getChunk m rest values in
          (values', key :: missing)
      end
  end.

Definition MemStore_GetBatch (st : MemStore) (keys : list Key) (values : Payload)
  : MemStore * Payload * list Key * option error :=
  match st.(mode) with
  | Failing => (st, values, [], Some unavailable)
  | _ =>
      let '(values', missing) := MemStore_getChunk st.(entries) keys values in
      (st, values', missing, None)
  end.

Definition MemStore_Put (st : MemStore) (key : Key) (value : Value)
  : MemStore * option error :=
  match st.(mode) with
  | Healthy => (withEntries st (<[CastKeyToString key := value]> st.(entries)), None)
  | _ => (st, Some unavailable)
  end.

Definition MemStore_PutBatch (st : MemStore) (values : Payload) : MemStore * option error :=
  match st.(mode) with
  | Healthy =>
      match InterfaceToMapInterfaceInterface values with
      | (mii, None) =>
          (withEntries st
             (foldl (λ acc kv, <[CastKeyToString kv.1 := kv.2]> acc)
                st.(entries) (map_to_list mii)), None)
      | (_, Some e) => (st, Some e)
      end
  | _ => (st, Some unavailable)
  end.

Definition MemStore_Delete (st : MemStore) (key : Key) : MemStore * option error :=
  match st.(mode) with
  | Healthy => (withEntries st (delete (CastKeyToString key) st.(entries)), None)
  | _ => (st, Some unavailable)
  end.

#[global] Instance MemStore_KvStore : KvStore MemStore := {
  Contains := MemStore_Contains;
  Get := MemStore_Get;
  GetBatch := MemStore_GetBatch;
  Put := MemStore_Put;
  PutBatch := MemStore_PutBatch;
  Delete := MemStore_Delete;
}.

(** A store that holds nothing and accepts every write. *)
Inductive NullStore := Null.

#[global] Instance NullStore_KvStore : KvStore NullStore := {
  Contains st _ := (st, false, None);
  Get st _ value := (st, value, false, None);
  GetBatch st keys values := (st, values, keys, None);
  Put st _ _ := (st, None);
  PutBatch st _ := (st, None);
  Delete st _ := (st, None);
}.

(** A chain may mix stores of two kinds. *)
#[global] Instance sum_KvStore {A B : Type} `{KvStore A, KvStore B} : KvStore (A + B) := {
  Contains st key :=
    match st with
    | inl a => let '(a', found, err) := Contains a key in (inl a', found, err)
    | inr b => let '(b', found, err) := Contains b key in (inr b', found, err)
    end;
  Get st key value :=
    match st with
    | inl a => let '(a', v, found, err) := Get a key value in (inl a', v, found, err)
    | inr b => let '(b', v, found, err) := Get b key value in (inr b', v, found, err)
    end;
  GetBatch st keys values :=
    match st with
    | inl a =>
        let '(a', out, missing, err) := GetBatch a keys values in (inl a', out, missing, err)
    | inr b =>
        let '(b', out, missing, err) := GetBatch b keys values in (inr b', out, missing, err)
    end;
  Put st key value :=
    match st with
    | inl a => let '(a', err) := Put a key value in (inl a', err)
    | inr b => let '(b', err) := Put b key value in (inr b', err)
    end;
  PutBatch st values :=
    match st with
    | inl a => let '(a', err) := PutBatch a values in (inl a', err)
    | inr b => let '(b', err) := PutBatch b values in (inr b', err)
    end;
  Delete st key :=
    match st with
    | inl a => let '(a', err) := Delete a key in (inl a', err)
    | inr b => let '(b', err) := Delete b key in (inr b', err)
    end;
}.

Definition memStore (l : list (string * Value)) (m : Mode) : MemStore :=
  {| entries := list_to_map l; mode := m |}.

Definition emptyCache : MemStore := memStore [] Healthy.

(** The chain [M, D] of scenario S5, without and with the missing-value cache. *)
Definition chainS5 (enabled : bool) : ChainKvStore MemStore MemStore :=
  {| chain := [memStore [("a", VData 1)] Healthy;
               memStore [("a", VData 1); ("b", VData 2)] Healthy];
     missingCacheEnabled := enabled;
     missingCache := emptyCache |}.

(** A flaky cache in front of a healthy terminal store. *)
Definition chainFlaky (enabled : bool) : ChainKvStore MemStore MemStore :=
  {| chain := [memStore [("a", VData 1)] Failing;
               memStore [("a", VData 1); ("k", VData 7)] Healthy];
     missingCacheEnabled := enabled;
     missingCache := emptyCache |}.

(** A healthy cache in front of a terminal store that is down. *)
Definition chainDown : ChainKvStore MemStore MemStore :=
  {| chain := [memStore [("a", VData 1)] Healthy; memStore [] Failing];
     missingCacheEnabled := true;
     missingCache := emptyCache |}.

(** One empty store, and a missing-value cache that already knows key 5. *)
Definition chainKnows5 : ChainKvStore MemStore MemStore :=
  {| chain := [memStore [] Healthy];
     missingCacheEnabled := true;
     missingCache := memStore [("5", VNoValue)] Healthy |}.

(** One store, and a missing-value cache that knows ["k"] and can no longer
    be written. *)
Definition chainStuck : ChainKvStore MemStore MemStore :=
  {| chain := [memStore [] Healthy];
     missingCacheEnabled := true;
     missingCache := memStore [("k", VNoValue)] ReadOnly |}.

(** A store that accepts everything, with the missing-value cache enabled. *)
Definition chainNull : ChainKvStore NullStore MemStore :=
  {| chain := [Null]; missingCacheEnabled := true; missingCache := emptyCache |}.

(** A flaky in-memory store in front of a store that accepts everything. *)
Definition chainMixed : ChainKvStore (MemStore + NullStore) MemStore :=
  {| chain := [inl (memStore [("a", VData 1)] Failing); inr Null];
     missingCacheEnabled := true;
     missingCache := emptyCache |}.

(** Every entry of the first container is an entry of the second. *)
Definition retains (p q : Payload) : Prop := ∀ k, populated p k → populated q k.

(** The keys of scenario S5. *)
Definition keysABC : list Key := [KStr "a"; KStr "b"; KStr "c"].

(** No store was ever added, and the missing-value cache already knows
    key 5. *)
Definition chainEmptyKnows5 : ChainKvStore MemStore MemStore :=
  NewChainKvStoreWithInterfaces true (memStore [("5", VNoValue)] Healthy).

(** No store was ever added. *)
Definition chainEmpty (enabled : bool) : ChainKvStore MemStore MemStore :=
  NewChainKvStoreWithInterfaces enabled emptyCache.

(** ** Vocabulary of the properties *)

(** [refill[i]] after store [i] answered: what it reported missing, or all
    of [todo] when it failed. *)
Definition refillOf (todo missing : list Key) (err : option error) : list Key :=
  match err with
  | Some _ => todo
  | None => missing
  end.

Section Runs.
Context {T C : Type} {tierStore : KvStore T} {cacheStore : KvStore C}.

(** The five ways through [GetBatch], each with the intermediate results it
    goes through; [GetBatch_run] below shows that every call takes one. *)
Inductive GetBatchRun (s : ChainKvStore T C) (keys values : Payload)
  : ChainKvStore T C * Payload * list Event * (list Key * option error) → Prop :=
| RunBadKeys l e :
    InterfaceToInterfaceSlice keys = (l, Some e) →
    GetBatchRun s keys values (s, values, [], ([], Some (Errorf CanNotMorphKeys e)))
| RunAllCached todo cache1 log1 cachedMissing :
    InterfaceToInterfaceSlice keys = (todo, None) →
    cachedLookup s todo = (cache1, log1, [], cachedMissing) →
    GetBatchRun s keys values (withMissingCache s cache1, values, log1, (cachedMissing, None))
| RunWalkFailed todo cache1 log1 todo1 cachedMissing elements log2 values2 e :
    InterfaceToInterfaceSlice keys = (todo, None) →
    cachedLookup s todo = (cache1, log1, todo1, cachedMissing) →
    todo1 ≠ [] →
    batchWalk (lastElementIndexOf s.(chain)) 0 s.(chain) todo1 values ∅
      = (elements, log2, values2, BatchFailed e) →
    GetBatchRun s keys values
      (withChain (withMissingCache s cache1) elements, values2, log1 ++ log2,
       ([], Some e))
| RunBadValues todo cache1 log1 todo1 cachedMissing elements log2 values2
      todo2 refill foundInIndex mii e :
    InterfaceToInterfaceSlice keys = (todo, None) →
    cachedLookup s todo = (cache1, log1, todo1, cachedMissing) →
    todo1 ≠ [] →
    batchWalk (lastElementIndexOf s.(chain)) 0 s.(chain) todo1 values ∅
      = (elements, log2, values2, BatchWalked todo2 refill foundInIndex) →
    InterfaceToMapInterfaceInterface values2 = (mii, Some e) →
    GetBatchRun s keys values
      (withChain (withMissingCache s cache1) elements, values2, log1 ++ log2,
       ([], Some (Errorf CanNotCastResultValues e)))
| RunDone todo cache1 log1 todo1 cachedMissing elements log2 values2
      todo2 refill foundInIndex mii elements3 log3 cache4 log4 :
    InterfaceToInterfaceSlice keys = (todo, None) →
    cachedLookup s todo = (cache1, log1, todo1, cachedMissing) →
    todo1 ≠ [] →
    batchWalk (lastElementIndexOf s.(chain)) 0 s.(chain) todo1 values ∅
      = (elements, log2, values2, BatchWalked todo2 refill foundInIndex) →
    InterfaceToMapInterfaceInterface values2 = (mii, None) →
    propagateBatch mii refill foundInIndex elements = (elements3, log3) →
    (if s.(missingCacheEnabled) && (0 <? length todo2)%nat
     then missingCachePutBatch cache1 todo2 else (cache1, [])) = (cache4, log4) →
    GetBatchRun s keys values
      (withMissingCache (withChain (withChain (withMissingCache s cache1) elements)
                           elements3) cache4,
       values2, log1 ++ log2 ++ log3 ++ log4, (todo2 ++ cachedMissing, None)).

(** Every operation of the last store of the chain succeeds. *)
Definition terminalSucceeds (elements : list T) : Prop :=
  ∀ t, last elements = Some t →
    (∀ key, (Contains t key).2 = None) ∧
    (∀ key value, (Get t key value).2 = None) ∧
    (∀ todo values, (GetBatch t todo values).2 = None) ∧
    (∀ key value, (Put t key value).2 = None) ∧
    (∀ values, (PutBatch t values).2 = None).

(** The second container is of the kind of the first: what a callee can
    leave in a container it was handed. *)
Definition sameKind (p q : Payload) : Prop := mutated p q = q.

(** The contract of [GetBatch] for a store, on destinations of the kind of
    [values]: it never removes an entry of the destination, and when it
    succeeds it returns keys it was asked for and has written an entry for
    every other key it was asked for. *)
Definition honoursGetBatch (values : Payload) (t : T) : Prop :=
  ∀ todo vs, sameKind values vs →
    (∀ k, populated vs k → populated (mutated vs (GetBatch t todo vs).1.1.2) k) ∧
    ((GetBatch t todo vs).2 = None →
     (∀ k, k ∈ (GetBatch t todo vs).1.2 → k ∈ todo) ∧
     (∀ k, k ∈ todo → k ∉ (GetBatch t todo vs).1.2 →
           populated (mutated vs (GetBatch t todo vs).1.1.2) k)).

(** The contract of the lookup in the missing-value cache, when the lookup
    succeeds: the cache returns keys it was asked for, every key it was asked
    for is returned or has its string form as a key of the map the cache
    filled, and that map has no other keys. *)
Definition honoursLookup (c : C) : Prop :=
  ∀ todo,
    (GetBatch c todo (PStrMap ∅)).2 = None →
    (∀ k, k ∈ (GetBatch c todo (PStrMap ∅)).1.2 → k ∈ todo) ∧
    (∀ k, k ∈ todo →
          k ∈ (GetBatch c todo (PStrMap ∅)).1.2 ∨
          KStr (CastKeyToString k)
            ∈ rangeKeys (mutated (PStrMap ∅) (GetBatch c todo (PStrMap ∅)).1.1.2)) ∧
    (∀ k', k' ∈ rangeKeys (mutated (PStrMap ∅) (GetBatch c todo (PStrMap ∅)).1.1.2) →
           ∃ k, k ∈ todo ∧ k' = KStr (CastKeyToString k)).

End Runs.

(** The store an event writes to, if it is a write to a store. *)
Definition writtenStore (ev : Event) : option nat :=
  match ev with
  | EvPut i _ _ _ | EvPutBatch i _ _ => Some i
  | _ => None
  end.

(** ** The subscriber callback: looking up transformers and outputs

    [ModelTransformers] and [Outputs] are maps from the model id to maps from
    the version to a transformer or an output; an interface value may be
    [nil], which is [None] here. *)

Record ModelSpecification := {
  CrudType : string;
  Version : Z;
  ModelId : string;
}.

Inductive LookupError :=
| NoTransformerForModel (modelId : string)
| NoTransformerForVersion (modelId : string) (version : Z)
| NoOutputForModel (modelId : string)
| NoOutputForVersion (modelId : string) (version : Z).

Section SubscriberCallback.
Context {ModelTransformer Output : Type}.

Record SubscriberCallback := {
  transformers : gmap string (gmap Z (option ModelTransformer));
  outputs : gmap string (gmap Z (option Output));
}.

(** [m[modelId][version]] on a map of maps: the zero value [nil] when either
    lookup finds nothing. *)
Definition index2 {A : Type} (m : gmap string (gmap Z (option A)))
    (modelId : string) (version : Z) : option A :=
  match m !! modelId with
  | Some versions => default None (versions !! version)
  | None => None
  end.

Definition getTransformer (s : SubscriberCallback) (spec : ModelSpecification)
  : option ModelTransformer * option LookupError :=
  match s.(transformers) !! spec.(ModelId) with
  | None => (None, Some (NoTransformerForModel spec.(ModelId)))
  | Some versions =>
      match versions !! spec.(Version) with
      | None => (None, Some (NoTransformerForVersion spec.(ModelId) spec.(Version)))
      | Some _ => (index2 s.(transformers) spec.(ModelId) spec.(Version), None)
      end
  end.

(** Both checks of [getOutput] are on [s.transformers]; the value returned is
    taken from [s.outputs]. *)
Definition getOutput (s : SubscriberCallback) (spec : ModelSpecification)
  : option Output * option LookupError :=
  match s.(transformers) !! spec.(ModelId) with
  | None => (None, Some (NoOutputForModel spec.(ModelId)))
  | Some versions =>
      match versions !! spec.(Version) with
      | None => (None, Some (NoOutputForVersion spec.(ModelId) spec.(Version)))
      | Some _ => (index2 s.(outputs) spec.(ModelId) spec.(Version), None)
      end
  end.

End SubscriberCallback.

Arguments SubscriberCallback : clear implicits.

(** * Properties *)

Section Properties.
Context {T C : Type} {tierStore : KvStore T} {cacheStore : KvStore C}.

Implicit Types (s : ChainKvStore T C) (key k : Key) (value : Value).
Implicit Types (keys values : Payload) (todo missing : list Key).
Implicit Types (elements : list T) (log evs : list Event).

(** ** Containers *)

Lemma mutated_coercible caller callee :
  (InterfaceToMapInterfaceInterface (mutated caller callee)).2 = None ↔
  (InterfaceToMapInterfaceInterface caller).2 = None.
Proof. by destruct caller, callee. Qed.

Lemma rangeKeys_NoDup p : NoDup (rangeKeys p).
Proof.
  destruct p as [|m| |]; simpl; try apply NoDup_nil_2.
  apply (NoDup_fmap_2 _), NoDup_fst_map_to_list.
Qed.

Lemma rangeKeys_spec p k :
  k ∈ rangeKeys p ↔ ∃ str m, p = PStrMap m ∧ k = KStr str ∧ is_Some (m !! str).
Proof.
  destruct p as [|m| |]; simpl.
  1,3,4: split; [by intros ?%elem_of_nil | by intros (? & ? & ? & _)].
  rewrite list_elem_of_fmap. split.
  - intros (str & -> & [[str' v] [-> Hin%elem_of_map_to_list]]%list_elem_of_fmap).
    by exists str', m.
  - intros (str & m' & [= <-] & -> & [v Hv]).
    exists str. split; [done|].
    apply list_elem_of_fmap. exists (str, v). by rewrite elem_of_map_to_list.
Qed.

Lemma missingInElementOf_lookup (mii : gmap Key Value) (l : list Key) k v :
  missingInElementOf mii l !! k = Some v → k ∈ l ∧ mii !! k = Some v.
Proof.
  unfold missingInElementOf.
  assert (∀ acc : gmap Key Value,
    (foldl (λ acc key, match mii !! key with
                       | Some val => <[key:=val]> acc | None => acc end) acc l
       : gmap Key Value) !! k
      = Some v → acc !! k = Some v ∨ (k ∈ l ∧ mii !! k = Some v)) as Hgen.
  { induction l as [|a l IH]; intros acc; simpl; [by left|].
    intros [Hacc|[Hin Hk]]%IH.
    - destruct (mii !! a) eqn:Ha; [|by left].
      destruct (decide (a = k)) as [->|Hne].
      + rewrite lookup_insert_eq in Hacc. simplify_eq. right. split; [left|done].
      + rewrite lookup_insert_ne in Hacc by done. by left.
    - right. split; [by right|done]. }
  intros [Hempty|?]%Hgen; [by rewrite lookup_empty in Hempty|done].
Qed.

(** ** The chain walk of [GetBatch], case by case *)

Lemma batchWalk_cases (lastElementIndex : Z)
    (P : nat → list T → list Key → Payload → gmap nat (list Key) →
         list T * list Event * Payload * BatchWalk → Prop) :
  (∀ i todo values refill,
     P i [] todo values refill
       ([], [], values, BatchWalked todo refill (Z.to_nat (lastElementIndex + 1)))) →
  (∀ i element rest todo values refill element' out missing e,
     GetBatch element todo values = (element', out, missing, Some e) →
     Z.of_nat i = lastElementIndex →
     P i (element :: rest) todo values refill
       (element' :: rest, [EvGetBatch i todo (mutated values out) missing (Some e)],
        mutated values out, BatchFailed (Errorf (CouldNotGetBatch i) e))) →
  (∀ i element rest todo values refill element' out missing err,
     GetBatch element todo values = (element', out, missing, err) →
     err = None ∨ Z.of_nat i ≠ lastElementIndex →
     refillOf todo missing err = [] →
     P i (element :: rest) todo values refill
       (element' :: rest,
        EvGetBatch i todo (mutated values out) missing err
          :: warnIf (CouldNotGetBatch i) err,
        mutated values out, BatchWalked [] (<[i := []]> refill) i)) →
  (∀ i element rest todo values refill element' out missing err rest' evs values' r,
     GetBatch element todo values = (element', out, missing, err) →
     err = None ∨ Z.of_nat i ≠ lastElementIndex →
     refillOf todo missing err ≠ [] →
     batchWalk lastElementIndex (S i) rest (refillOf todo missing err)
       (mutated values out) (<[i := refillOf todo missing err]> refill)
       = (rest', evs, values', r) →
     P (S i) rest (refillOf todo missing err) (mutated values out)
       (<[i := refillOf todo missing err]> refill) (rest', evs, values', r) →
     P i (element :: rest) todo values refill
       (element' :: rest',
        (EvGetBatch i todo (mutated values out) missing err
           :: warnIf (CouldNotGetBatch i) err) ++ evs,
        values', r)) →
  ∀ i elements todo values refill,
    P i elements todo values refill
      (batchWalk lastElementIndex i elements todo values refill).
Proof.
  intros Hnil Hfail Hstop Hnext i elements.
  revert i. induction elements as [|element rest IH]; intros i todo values refill.
  { apply Hnil. }
  simpl. destruct (GetBatch element todo values) as [[[element' out] missing] err] eqn:Hcall.
  assert (∀ (Hok : err = None ∨ Z.of_nat i ≠ lastElementIndex),
    P i (element :: rest) todo values refill
      (if (length (refillOf todo missing err) =? 0)%nat
       then (element' :: rest,
             EvGetBatch i todo (mutated values out) missing err
               :: warnIf (CouldNotGetBatch i) err,
             mutated values out,
             BatchWalked (refillOf todo missing err)
               (<[i := refillOf todo missing err]> refill) i)
       else
         let '(rest', evs, values'', r) :=
           batchWalk lastElementIndex (S i) rest (refillOf todo missing err)
             (mutated values out) (<[i := refillOf todo missing err]> refill) in
         (element' :: rest',
          (EvGetBatch i todo (mutated values out) missing err
             :: warnIf (CouldNotGetBatch i) err) ++ evs, values'', r))) as Hgo.
  { intros Hok. destruct (length (refillOf todo missing err) =? 0)%nat eqn:Hlen.
    - apply Nat.eqb_eq, nil_length_inv in Hlen. rewrite Hlen. by eapply Hstop.
    - assert (refillOf todo missing err ≠ []) as Hne.
      { intros Heq. rewrite Heq in Hlen. done. }
      destruct (batchWalk lastElementIndex (S i) rest (refillOf todo missing err)
                  (mutated values out) (<[i := refillOf todo missing err]> refill))
        as [[[rest' evs] values''] r] eqn:Hrest.
      eapply Hnext; eauto. rewrite <- Hrest. apply IH. }
  destruct err as [e|].
  - destruct (Z.of_nat i =? lastElementIndex) eqn:Hlast.
    + apply Z.eqb_eq in Hlast. by eapply Hfail.
    + apply Z.eqb_neq in Hlast. apply Hgo. by right.
  - destruct (Z.of_nat i =? lastElementIndex); apply Hgo; by left.
Qed.

(** The walk only reads the stores: it writes to no store and does not call
    the missing-value cache. *)
Lemma batchWalk_reads_only lastElementIndex i elements todo values refill :
  Forall (λ ev, writesTier ev = false ∧ touchesMissingCache ev = false)
    (batchWalk lastElementIndex i elements todo values refill).1.1.2.
Proof.
  apply (batchWalk_cases lastElementIndex
           (λ _ _ _ _ _ res,
              Forall (λ ev, writesTier ev = false ∧ touchesMissingCache ev = false)
                res.1.1.2)); simpl.
  - constructor.
  - intros. by repeat constructor.
  - intros i' element rest td vs rf element' out msg [e|] _ _ _; by repeat constructor.
  - intros i' element rest td vs rf element' out msg err rest' evs vs' r _ _ _ _ IH.
    constructor; [done|]. apply Forall_app. split; [|done].
    destruct err; by repeat constructor.
Qed.

(** What the walk leaves in [refill], read off the calls it made. *)
Lemma batchWalk_refill lastElementIndex i elements todo values refill
    els evs values' todo' refill' found :
  batchWalk lastElementIndex i elements todo values refill
    = (els, evs, values', BatchWalked todo' refill' found) →
  (∀ j, (j < i)%nat → refill' !! j = refill !! j) ∧
  (∀ j l, refill' !! j = Some l →
     refill !! j = Some l ∨
     ∃ td out rep err, EvGetBatch j td out rep err ∈ evs ∧ l = refillOf td rep err) ∧
  (∀ j td out rep err, EvGetBatch j td out rep err ∈ evs →
     (i ≤ j)%nat ∧ refill' !! j = Some (refillOf td rep err)).
Proof.
  revert els evs values' todo' refill' found.
  apply (batchWalk_cases lastElementIndex
    (λ i elements todo values refill res,
       ∀ els evs values' todo' refill' found,
         res = (els, evs, values', BatchWalked todo' refill' found) →
         (∀ j, (j < i)%nat → refill' !! j = refill !! j) ∧
         (∀ j l, refill' !! j = Some l →
            refill !! j = Some l ∨
            ∃ td out rep err, EvGetBatch j td out rep err ∈ evs
                              ∧ l = refillOf td rep err) ∧
         (∀ j td out rep err, EvGetBatch j td out rep err ∈ evs →
            (i ≤ j)%nat ∧ refill' !! j = Some (refillOf td rep err)))).
  - intros i' td vs rf els evs values' todo' refill' found [= <- <- <- <- <- <-].
    split_and!; [done|by left|by intros ????? ?%elem_of_nil].
  - intros; simplify_eq.
  - intros i' element rest td vs rf element' out msg err Hcall Hok Hnil
      els evs values' todo' refill' found [= <- <- <- <- <- <-].
    split_and!.
    + intros j Hj. rewrite lookup_insert_ne; [done|lia].
    + intros j l. destruct (decide (i' = j)) as [<-|Hne].
      * rewrite lookup_insert_eq. intros [= <-]. right.
        exists td, (mutated vs out), msg, err. split; [left|done].
      * rewrite lookup_insert_ne by done. by left.
    + intros j td' out' rep' err' Hin.
      assert (EvGetBatch j td' out' rep' err'
              = EvGetBatch i' td (mutated vs out) msg err) as [= -> -> -> -> ->].
      { apply elem_of_cons in Hin as [->|Hin]; [done|].
        destruct err; [apply list_elem_of_singleton in Hin|apply elem_of_nil in Hin];
          done. }
      split; [done|]. by rewrite lookup_insert_eq, Hnil.
  - intros i' element rest td vs rf element' out msg err rest' evs0 vs' r Hcall Hok Hne
      Hrest IH els evs values' todo' refill' found [= <- <- <- ->].
    destruct (IH _ _ _ _ _ _ eq_refl) as (IH1 & IH2 & IH3).
    split_and!.
    + intros j Hj. rewrite IH1 by lia. rewrite lookup_insert_ne; [done|lia].
    + intros j l [Hl|(td' & out' & rep' & err' & Hin & ->)]%IH2.
      * destruct (decide (i' = j)) as [<-|Hnej].
        -- rewrite lookup_insert_eq in Hl. simplify_eq. right.
           exists td, (mutated vs out), msg, err. split; [left|done].
        -- rewrite lookup_insert_ne in Hl by done. by left.
      * right. exists td', out', rep', err'. split; [|done].
        right. apply elem_of_app. by right.
    + intros j td' out' rep' err' Hin.
      apply elem_of_cons in Hin as [[= -> -> -> -> ->]|Hin].
      { split; [done|]. rewrite IH1 by lia. by rewrite lookup_insert_eq. }
      apply elem_of_app in Hin as [Hin|Hin].
      { destruct err; [apply list_elem_of_singleton in Hin|apply elem_of_nil in Hin];
          done. }
      apply IH3 in Hin as [? ?]. split; [lia|done].
Qed.

(** ** The missing-value cache calls of [GetBatch] *)

Lemma warnIf_no_call m err ev :
  ev ∈ warnIf m err → touchesTier ev = false ∧ touchesMissingCache ev = false.
Proof. destruct err; simpl; [intros ->%list_elem_of_singleton|intros ?%elem_of_nil]; done. Qed.

Lemma cachedLookup_log s todo ev :
  ev ∈ (cachedLookup s todo).1.1.2 → touchesTier ev = false ∧ writesMissingCache ev = false.
Proof.
  unfold cachedLookup, missingCacheGetBatch.
  destruct (missingCacheEnabled s); [|by intros ?%elem_of_nil].
  destruct (GetBatch (missingCache s) todo (PStrMap ∅)) as [[[cache' out] todo'] err].
  simpl. intros [->|Hin]%elem_of_cons; [done|].
  destruct err; [apply list_elem_of_singleton in Hin as ->|apply elem_of_nil in Hin]; done.
Qed.

Lemma missingCachePutBatch_log (cache : C) todo ev :
  ev ∈ (missingCachePutBatch cache todo).2 → touchesTier ev = false.
Proof.
  unfold missingCachePutBatch. destruct (PutBatch cache _) as [cache' err].
  simpl. intros [->|Hin]%elem_of_cons; [done|]. by apply warnIf_no_call in Hin as [? _].
Qed.

(** ** Backfill of [GetBatch] *)

(** Every write of the backfill goes to a store in front of [foundInIndex]
    whose [refill] is not empty, with exactly the entries of [mii] under the
    keys of that [refill]. *)
Lemma propagateBatch_log (mii : gmap Key Value) (refill : gmap nat (list Key))
    found elements ev :
  ev ∈ (propagateBatch mii refill found elements).2 →
  (∃ m cause, ev = Warnf m cause) ∨
  (∃ j err, ev = EvPutBatch j (PMap (missingInElementOf mii (default [] (refill !! j)))) err
            ∧ (j < found)%nat ∧ default [] (refill !! j) ≠ []).
Proof.
  revert elements. induction found as [|i IH]; intros elements; simpl.
  { by intros ?%elem_of_nil. }
  assert (∀ els : list T, ev ∈ (propagateBatch mii refill i els).2 →
    (∃ m cause, ev = Warnf m cause) ∨
    (∃ j err, ev = EvPutBatch j
                (PMap (missingInElementOf mii (default [] (refill !! j)))) err
              ∧ (j < S i)%nat ∧ default [] (refill !! j) ≠ [])) as IH'.
  { intros els Hin. destruct (IH els Hin) as [?|(j & err & -> & ? & ?)]; [by left|right].
    exists j, err. split_and!; [done|lia|done]. }
  destruct (length (default [] (refill !! i)) =? 0)%nat eqn:Hlen; [by apply IH'|].
  destruct (size (missingInElementOf mii (default [] (refill !! i))) =? 0)%nat;
    [by apply IH'|].
  destruct (elements !! i) as [element|]; [|by intros ?%elem_of_nil].
  destruct (PutBatch element _) as [element' err].
  destruct (propagateBatch mii refill i (<[i:=element']> elements)) as [els evs] eqn:Hrec.
  simpl. intros [->|[Hin|Hin]%elem_of_app]%elem_of_cons.
  - right. exists i, err. split_and!; [done|lia|].
    intros Heq. by rewrite Heq in Hlen.
  - left. destruct err; [apply list_elem_of_singleton in Hin as ->|apply elem_of_nil in Hin];
      [eauto|done].
  - apply (IH' (<[i:=element']> elements)). by rewrite Hrec.
Qed.

(** ** Every call of [GetBatch] is one of the five runs *)

Lemma GetBatch_run s keys values :
  GetBatchRun s keys values (ChainKvStore_GetBatch s keys values).
Proof.
  unfold ChainKvStore_GetBatch.
  destruct (InterfaceToInterfaceSlice keys) as [todo [e|]] eqn:Hkeys.
  { by eapply RunBadKeys. }
  destruct (cachedLookup s todo) as [[[cache1 log1] todo1] cachedMissing] eqn:Hlookup.
  destruct (length todo1 =? 0)%nat eqn:Hlen.
  { apply Nat.eqb_eq, nil_length_inv in Hlen as ->. by eapply RunAllCached. }
  assert (todo1 ≠ []) as Hne by (by intros ->).
  destruct (batchWalk _ 0 (chain s) todo1 values ∅)
    as [[[elements log2] values2] [e|todo2 refill found]] eqn:Hwalk.
  { by eapply RunWalkFailed. }
  destruct (InterfaceToMapInterfaceInterface values2) as [mii [e|]] eqn:Hmii.
  { by eapply RunBadValues. }
  destruct (propagateBatch mii refill found elements) as [elements3 log3] eqn:Hback.
  destruct (if missingCacheEnabled s && (0 <? length todo2)%nat
            then missingCachePutBatch cache1 todo2 else (cache1, []))
    as [cache4 log4] eqn:Hstore.
  by eapply RunDone.
Qed.

Lemma batchWalk_reads_only_elem lastElementIndex i elements todo values refill
    els evs values' r ev :
  batchWalk lastElementIndex i elements todo values refill = (els, evs, values', r) →
  ev ∈ evs → writesTier ev = false ∧ touchesMissingCache ev = false.
Proof.
  intros Hwalk Hin.
  pose proof (batchWalk_reads_only lastElementIndex i elements todo values refill) as Hall.
  rewrite Hwalk in Hall. simpl in Hall.
  by apply (proj1 (Forall_forall _ _) Hall).
Qed.

(** C6: a backfill write of [GetBatch] to store [i] carries only keys of
    [refill[i]], that is keys store [i] reported missing during the walk (all
    of its [todo] when it failed), each with the entry the values container
    holds for it after the walk; so no key that store [i] reported present is
    written back to it. *)
Theorem GetBatch_backfill_within_refill s keys values s' values' log res i p perr :
  ChainKvStore_GetBatch s keys values = (s', values', log, res) →
  EvPutBatch i p perr ∈ log →
  ∃ batch, p = PMap batch ∧
    (∃ td out rep rerr, EvGetBatch i td out rep rerr ∈ log) ∧
    ∀ k v, batch !! k = Some v →
      (InterfaceToMapInterfaceInterface values').1 !! k = Some v ∧
      ∀ td out rep rerr,
        EvGetBatch i td out rep rerr ∈ log → k ∈ refillOf td rep rerr.
Proof.
  intros Hrun Hput.
  pose proof (GetBatch_run s keys values) as Hcases. rewrite Hrun in Hcases.
  inversion Hcases as
    [ l e Hkeys
    | todo cache1 log1 cachedMissing Hkeys Hlookup
    | todo cache1 log1 todo1 cachedMissing elements log2 values2 e Hkeys Hlookup Hne Hwalk
    | todo cache1 log1 todo1 cachedMissing elements log2 values2 todo2 refill found mii e
        Hkeys Hlookup Hne Hwalk Hmii
    | todo cache1 log1 todo1 cachedMissing elements log2 values2 todo2 refill found mii
        elements3 log3 cache4 log4 Hkeys Hlookup Hne Hwalk Hmii Hback Hstore ];
    subst.
  - by apply elem_of_nil in Hput.
  - pose proof (cachedLookup_log s todo (EvPutBatch i p perr)) as Hlog.
    rewrite Hlookup in Hlog. by destruct (Hlog Hput).
  - apply elem_of_app in Hput as [Hput|Hput].
    + pose proof (cachedLookup_log s todo (EvPutBatch i p perr)) as Hlog.
      rewrite Hlookup in Hlog. by destruct (Hlog Hput).
    + by destruct (batchWalk_reads_only_elem _ _ _ _ _ _ _ _ _ _ _ Hwalk Hput).
  - apply elem_of_app in Hput as [Hput|Hput].
    + pose proof (cachedLookup_log s todo (EvPutBatch i p perr)) as Hlog.
      rewrite Hlookup in Hlog. by destruct (Hlog Hput).
    + by destruct (batchWalk_reads_only_elem _ _ _ _ _ _ _ _ _ _ _ Hwalk Hput).
  - destruct (batchWalk_refill _ _ _ _ _ _ _ _ _ _ _ _ Hwalk) as (_ & Hfrom & Hto).
    assert (EvPutBatch i p perr ∈ log3) as Hin3.
    { apply elem_of_app in Hput as [Hput|Hput].
      { pose proof (cachedLookup_log s todo (EvPutBatch i p perr)) as Hlog.
        rewrite Hlookup in Hlog. by destruct (Hlog Hput). }
      apply elem_of_app in Hput as [Hput|Hput].
      { by destruct (batchWalk_reads_only_elem _ _ _ _ _ _ _ _ _ _ _ Hwalk Hput). }
      apply elem_of_app in Hput as [Hput|Hput]; [done|].
      destruct (missingCacheEnabled s && (0 <? length todo2)%nat).
      - pose proof (missingCachePutBatch_log cache1 todo2 (EvPutBatch i p perr)) as Hlog.
        rewrite Hstore in Hlog. by specialize (Hlog Hput).
      - simplify_eq. by apply elem_of_nil in Hput. }
    pose proof (propagateBatch_log mii refill found elements (EvPutBatch i p perr)) as Hlog.
    rewrite Hback in Hlog.
    destruct (Hlog Hin3) as [(m & cause & [=])|(j & err & [= <- -> <-] & Hlt & Hfull)].
    exists (missingInElementOf mii (default [] (refill !! i))). split; [done|].
    assert (∀ td out rep rerr, EvGetBatch i td out rep rerr ∈ log1 ++ log2 ++ log3 ++ log4 →
              EvGetBatch i td out rep rerr ∈ log2) as Hwalked.
    { intros td out rep rerr Hin.
      apply elem_of_app in Hin as [Hin|Hin].
      { pose proof (cachedLookup_log s todo (EvGetBatch i td out rep rerr)) as Hl.
        rewrite Hlookup in Hl. by destruct (Hl Hin). }
      apply elem_of_app in Hin as [Hin|Hin]; [done|].
      apply elem_of_app in Hin as [Hin|Hin].
      { pose proof (propagateBatch_log mii refill found elements
                      (EvGetBatch i td out rep rerr)) as Hl.
        rewrite Hback in Hl.
        by destruct (Hl Hin) as [(? & ? & [=])|(? & ? & [=] & _)]. }
      destruct (missingCacheEnabled s && (0 <? length todo2)%nat).
      - pose proof (missingCachePutBatch_log cache1 todo2
                      (EvGetBatch i td out rep rerr)) as Hl.
        rewrite Hstore in Hl. by specialize (Hl Hin).
      - simplify_eq. by apply elem_of_nil in Hin. }
    split.
    + destruct (refill !! i) as [l|] eqn:Hl; [|done].
      destruct (Hfrom i l Hl) as [Hempty|(td & out & rep & rerr & Hin & _)].
      { by rewrite lookup_empty in Hempty. }
      exists td, out, rep, rerr. apply elem_of_app. right. apply elem_of_app. by left.
    + intros k v [Hk Hv]%missingInElementOf_lookup. rewrite Hmii. split; [done|].
      intros td out rep rerr Hin%Hwalked.
      destruct (Hto _ _ _ _ _ Hin) as [_ Hri]. by rewrite Hri in Hk.
Qed.

(** ** A failed walk *)

(** The walk fails only at the last store, and what it leaves in the values
    container is what that store left there. *)
Lemma batchWalk_failed lastElementIndex i elements todo values refill els evs values' e :
  batchWalk lastElementIndex i elements todo values refill
    = (els, evs, values', BatchFailed e) →
  ∃ evs0 j td rep e0,
    evs = evs0 ++ [EvGetBatch j td values' rep (Some e0)] ∧
    e = Errorf (CouldNotGetBatch j) e0 ∧ Z.of_nat j = lastElementIndex.
Proof.
  revert els evs values' e.
  apply (batchWalk_cases lastElementIndex
    (λ i elements todo values refill res,
       ∀ els evs values' e, res = (els, evs, values', BatchFailed e) →
         ∃ evs0 j td rep e0,
           evs = evs0 ++ [EvGetBatch j td values' rep (Some e0)] ∧
           e = Errorf (CouldNotGetBatch j) e0 ∧ Z.of_nat j = lastElementIndex)).
  - intros; simplify_eq.
  - intros i' element rest td vs rf element' out msg e0 Hcall Hlast els evs values' e
      [= <- <- <- <-].
    by exists [], i', td, msg, e0.
  - intros; simplify_eq.
  - intros i' element rest td vs rf element' out msg err rest' evs0 vs' r Hcall Hok Hne
      Hrest IH els evs values' e [= <- <- <- ->].
    destruct (IH _ _ _ _ eq_refl) as (evs1 & j & td' & rep & e0 & -> & -> & Hj).
    exists ((EvGetBatch i' td (mutated vs out) msg err
               :: warnIf (CouldNotGetBatch i') err) ++ evs1), j, td', rep, e0.
    split; [|done]. by rewrite app_assoc.
Qed.

(** Whatever every store call preserves on the values container, the walk
    preserves from each of its calls to its end. *)
Lemma batchWalk_preserves (R : relation Payload) `{!PreOrder R}
    lastElementIndex i elements todo values refill els evs values' r :
  (∀ t, t ∈ elements → ∀ td vs, R vs (mutated vs (GetBatch t td vs).1.1.2)) →
  batchWalk lastElementIndex i elements todo values refill = (els, evs, values', r) →
  R values values' ∧
  ∀ j td out rep err, EvGetBatch j td out rep err ∈ evs → R out values'.
Proof.
  revert els evs values' r.
  apply (batchWalk_cases lastElementIndex
    (λ i elements todo values refill res,
       ∀ els evs values' r,
         (∀ t, t ∈ elements → ∀ td vs, R vs (mutated vs (GetBatch t td vs).1.1.2)) →
         res = (els, evs, values', r) →
         R values values' ∧
         ∀ j td out rep err, EvGetBatch j td out rep err ∈ evs → R out values')).
  - intros i' td vs rf els evs values' r _ [= <- <- <- <-].
    split; [done|]. by intros ????? ?%elem_of_nil.
  - intros i' element rest td vs rf element' out msg e0 Hcall Hlast els evs values' r
      Hpres [= <- <- <- <-].
    assert (R vs (mutated vs out)) as Hstep.
    { specialize (Hpres element (list_elem_of_here _ _) td vs). by rewrite Hcall in Hpres. }
    split; [done|].
    by intros j td' out' rep err [= _ _ -> _ _]%list_elem_of_singleton.
  - intros i' element rest td vs rf element' out msg err Hcall Hok Hnil els evs values' r
      Hpres [= <- <- <- <-].
    assert (R vs (mutated vs out)) as Hstep.
    { specialize (Hpres element (list_elem_of_here _ _) td vs). by rewrite Hcall in Hpres. }
    split; [done|].
    intros j td' out' rep err' [[= _ _ -> _ _]|Hin]%elem_of_cons; [done|].
    destruct err; [apply list_elem_of_singleton in Hin|apply elem_of_nil in Hin]; done.
  - intros i' element rest td vs rf element' out msg err rest' evs0 vs' r0 Hcall Hok Hne
      Hrest IH els evs values' r Hpres [= <- <- <- <-].
    assert (R vs (mutated vs out)) as Hstep.
    { specialize (Hpres element (list_elem_of_here _ _) td vs). by rewrite Hcall in Hpres. }
    destruct (IH _ _ _ _ (λ t Ht, Hpres t (list_elem_of_further _ _ _ Ht)) eq_refl)
      as [IH1 IH2].
    split; [by etrans|].
    intros j td' out' rep err' [[= _ _ -> _ _]|Hin]%elem_of_cons; [done|].
    apply elem_of_app in Hin as [Hin|Hin]; [|by eapply IH2].
    destruct err; [apply list_elem_of_singleton in Hin|apply elem_of_nil in Hin]; done.
Qed.

(** C9: when [GetBatch] fails on the error of the last store, nothing is
    rolled back: the caller's container is the one the last store call left,
    so whatever the stores preserve on it (its entries, for stores that only
    add) still holds from each earlier call on; no backfill write and no write
    to the missing-value cache has happened. *)
Theorem GetBatch_terminal_failure_keeps_values (R : relation Payload) `{!PreOrder R}
    s keys values s' values' log missing i e :
  ChainKvStore_GetBatch s keys values
    = (s', values', log, (missing, Some (Errorf (CouldNotGetBatch i) e))) →
  (∀ t, t ∈ chain s → ∀ td vs, R vs (mutated vs (GetBatch t td vs).1.1.2)) →
  missing = [] ∧
  Z.of_nat i = lastElementIndexOf (chain s) ∧
  (∃ log0 td rep, log = log0 ++ [EvGetBatch i td values' rep (Some e)]) ∧
  R values values' ∧
  (∀ j td out rep err, EvGetBatch j td out rep err ∈ log → R out values') ∧
  (∀ ev, ev ∈ log → writesTier ev = false ∧ writesMissingCache ev = false).
Proof.
  intros Hrun Hpres.
  pose proof (GetBatch_run s keys values) as Hcases. rewrite Hrun in Hcases.
  inversion Hcases as
    [ l e' Hkeys
    | | todo cache1 log1 todo1 cachedMissing elements log2 values2 e' Hkeys Hlookup Hne Hwalk
    | | ]; subst.
  destruct (batchWalk_failed _ _ _ _ _ _ _ _ _ _ Hwalk)
    as (evs0 & j & td & rep & e0 & -> & [= <- <-] & Hj).
  destruct (batchWalk_preserves R _ _ _ _ _ _ _ _ _ _ Hpres Hwalk) as [Hvalues Hcalls].
  split_and!; [done|done| |done| |].
  - exists (log1 ++ evs0), td, rep. by rewrite <- app_assoc.
  - intros j td' out rep' err [Hin|Hin]%elem_of_app; [|by eapply Hcalls].
    pose proof (cachedLookup_log s todo (EvGetBatch j td' out rep' err)) as Hlog.
    rewrite Hlookup in Hlog. by destruct (Hlog Hin).
  - intros ev [Hin|Hin]%elem_of_app.
    + pose proof (cachedLookup_log s todo ev) as Hlog.
      rewrite Hlookup in Hlog. destruct (Hlog Hin) as [Ht Hw]. split; [|done].
      by destruct ev.
    + destruct (batchWalk_reads_only_elem _ _ _ _ _ _ _ _ _ _ _ Hwalk Hin) as [Hw Hc].
      split; [done|]. by destruct ev.
Qed.


(** ** A store that fails during the walk *)

(** The walk is entered with keys to look for and goes on only while some
    are left: every store is asked for at least one key. *)
Lemma batchWalk_todo_nonempty lastElementIndex i elements todo values refill
    j td out rep err :
  todo ≠ [] →
  EvGetBatch j td out rep err
    ∈ (batchWalk lastElementIndex i elements todo values refill).1.1.2 →
  td ≠ [].
Proof.
  revert j td out rep err.
  apply (batchWalk_cases lastElementIndex
    (λ i elements todo values refill res,
       ∀ j td out rep err, todo ≠ [] →
         EvGetBatch j td out rep err ∈ res.1.1.2 → td ≠ [])); simpl.
  - intros i' td vs rf j td' out' rep err' _ Hin. by apply elem_of_nil in Hin.
  - by intros i' element rest td vs rf element' out msg e0 _ _ j td' out' rep err Hne
      [= _ -> _ _ _]%list_elem_of_singleton.
  - intros i' element rest td vs rf element' out msg err _ _ _ j td' out' rep err' Hne
      [[= _ -> _ _ _]|Hin]%elem_of_cons; [done|].
    destruct err; [apply list_elem_of_singleton in Hin|apply elem_of_nil in Hin]; done.
  - intros i' element rest td vs rf element' out msg err rest' evs vs' r _ _ Hne' _ IH
      j td' out' rep err' Hne [[= _ -> _ _ _]|Hin]%elem_of_cons; [done|].
    apply elem_of_app in Hin as [Hin|Hin]; [|by eapply IH].
    destruct err; [apply list_elem_of_singleton in Hin|apply elem_of_nil in Hin]; done.
Qed.

(** C5: when store [i] returns an error during the walk of [GetBatch]: at the
    last index the walk stops with the wrapped error, and [GetBatch] returns
    it; at any other index [refill[i]] becomes the current [todo], a warning
    is logged, and the walk goes on with the next store and the same [todo]. *)
Theorem GetBatch_walk_store_error lastElementIndex i (element : T) (rest : list T)
    todo values refill (element' : T) out missing e :
  GetBatch element todo values = (element', out, missing, Some e) →
  todo ≠ [] →
  (Z.of_nat i = lastElementIndex →
   batchWalk lastElementIndex i (element :: rest) todo values refill
     = (element' :: rest,
        [EvGetBatch i todo (mutated values out) missing (Some e)],
        mutated values out, BatchFailed (Errorf (CouldNotGetBatch i) e))) ∧
  (Z.of_nat i ≠ lastElementIndex →
   batchWalk lastElementIndex i (element :: rest) todo values refill
     = let '(rest', evs, values', r) :=
         batchWalk lastElementIndex (S i) rest todo (mutated values out)
           (<[i := todo]> refill) in
       (element' :: rest',
        EvGetBatch i todo (mutated values out) missing (Some e)
          :: Warnf (CouldNotGetBatch i) e :: evs,
        values', r)) ∧
  (∀ s keys vals td cache1 log1 todo1 cachedMissing els log2 vals2 err,
     InterfaceToInterfaceSlice keys = (td, None) →
     cachedLookup s td = (cache1, log1, todo1, cachedMissing) →
     todo1 ≠ [] →
     batchWalk (lastElementIndexOf (chain s)) 0 (chain s) todo1 vals ∅
       = (els, log2, vals2, BatchFailed err) →
     (ChainKvStore_GetBatch s keys vals).2 = ([], Some err)).
Proof.
  intros Hcall Hne. split_and!.
  - intros Hlast. simpl. rewrite Hcall.
    by rewrite (proj2 (Z.eqb_eq _ _) Hlast).
  - intros Hlast. simpl. rewrite Hcall.
    rewrite (proj2 (Z.eqb_neq _ _) Hlast).
    destruct todo as [|k todo]; [done|]. simpl.
    by destruct (batchWalk lastElementIndex (S i) rest (k :: todo) (mutated values out)
                   (<[i:=k :: todo]> refill)) as [[[rest' evs] values'] r].
  - intros s keys vals td cache1 log1 todo1 cachedMissing els log2 vals2 err
      Hkeys Hlookup Hne1 Hwalk.
    unfold ChainKvStore_GetBatch. rewrite Hkeys, Hlookup.
    destruct todo1 as [|k todo1]; [done|]. simpl.
    by rewrite Hwalk.
Qed.


(** ** Errors of stores in front of the last one *)

Lemma last_position (i : nat) (element : T) (rest : list T) :
  Z.of_nat i = Z.of_nat (i + length (element :: rest)) - 1 → rest = [].
Proof. destruct rest; [done|]. simpl. lia. Qed.

Lemma containsWalk_ok key lastElementIndex i elements :
  lastElementIndex = Z.of_nat (i + length elements) - 1 →
  (∀ t, last elements = Some t → (Contains t key).2 = None) →
  ∀ r, (containsWalk key lastElementIndex i elements).2 = Some r → r.2 = None.
Proof.
  revert i. induction elements as [|element rest IH]; intros i Hlast Hok r; simpl.
  { done. }
  destruct (Contains element key) as [[element' found] err] eqn:Hcall.
  assert (∀ r,
    (if found then (element' :: rest,
                    EvContains i key found err
                      :: warnIf (CouldNotCheckExistence key i) err, Some (true, None))
     else let '(rest', evs, r) := containsWalk key lastElementIndex (S i) rest in
          (element' :: rest',
           (EvContains i key found err
              :: warnIf (CouldNotCheckExistence key i) err) ++ evs, r)).2 = Some r →
    r.2 = None) as Hgo.
  { intros r'. destruct found; [by intros [= <-]|].
    destruct (containsWalk key lastElementIndex (S i) rest) as [[rest' evs] r0] eqn:Hrest.
    simpl. intros ->. apply (IH (S i)).
    - rewrite Hlast. simpl. lia.
    - intros t Ht. apply Hok. by destruct rest.
    - by rewrite Hrest. }
  destruct err as [e|]; [|destruct (Z.of_nat i =? lastElementIndex); apply Hgo].
  destruct (Z.of_nat i =? lastElementIndex) eqn:Hi; [|apply Hgo].
  apply Z.eqb_eq in Hi. rewrite Hlast in Hi. apply last_position in Hi as ->.
  specialize (Hok element eq_refl). by rewrite Hcall in Hok.
Qed.

Lemma getWalk_ok key value lastElementIndex i elements :
  lastElementIndex = Z.of_nat (i + length elements) - 1 →
  (∀ t, last elements = Some t → ∀ v, (Get t key v).2 = None) →
  ∀ e, (getWalk key value lastElementIndex i elements).2 ≠ GetFailed e.
Proof.
  revert i value. induction elements as [|element rest IH]; intros i value Hlast Hok e; simpl.
  { done. }
  destruct (Get element key value) as [[[element' value'] found] err] eqn:Hcall.
  assert (
    (if found then (element' :: rest,
                    EvGet i key value' found err :: warnIf (CouldNotGet key i) err,
                    value', GetFound i)
     else let '(rest', evs, value'', r) :=
            getWalk key value' lastElementIndex (S i) rest in
          (element' :: rest',
           (EvGet i key value' found err :: warnIf (CouldNotGet key i) err) ++ evs,
           value'', r)).2 ≠ GetFailed e) as Hgo.
  { destruct found; [done|].
    destruct (getWalk key value' lastElementIndex (S i) rest)
      as [[[rest' evs] value''] r0] eqn:Hrest.
    simpl. intros ->. eapply (IH (S i) value').
    - rewrite Hlast. simpl. lia.
    - intros t Ht. apply Hok. by destruct rest.
    - by rewrite Hrest. }
  destruct err as [e0|]; [|by destruct (Z.of_nat i =? lastElementIndex)].
  destruct (Z.of_nat i =? lastElementIndex) eqn:Hi; [|done].
  apply Z.eqb_eq in Hi. rewrite Hlast in Hi. apply last_position in Hi as ->.
  specialize (Hok element eq_refl value). by rewrite Hcall in Hok.
Qed.

Lemma batchWalk_ok lastElementIndex i elements todo values refill :
  lastElementIndex = Z.of_nat (i + length elements) - 1 →
  (∀ t, last elements = Some t → ∀ td vs, (GetBatch t td vs).2 = None) →
  ∀ e, (batchWalk lastElementIndex i elements todo values refill).2 ≠ BatchFailed e.
Proof.
  intros Hlast Hok e. revert Hlast Hok.
  apply (batchWalk_cases lastElementIndex
    (λ i elements todo values refill res,
       lastElementIndex = Z.of_nat (i + length elements) - 1 →
       (∀ t, last elements = Some t → ∀ td vs, (GetBatch t td vs).2 = None) →
       res.2 ≠ BatchFailed e)); simpl.
  - done.
  - intros i' element rest td vs rf element' out msg e0 Hcall Hi Hlast Hok.
    rewrite Hlast in Hi. apply (last_position i' element rest) in Hi as ->.
    specialize (Hok element eq_refl td vs). by rewrite Hcall in Hok.
  - done.
  - intros i' element rest td vs rf element' out msg err rest' evs vs' r _ _ _ _ IH Hlast Hok.
    apply IH.
    + rewrite Hlast. simpl. lia.
    + intros t Ht. apply Hok. by destruct rest.
Qed.

Lemma putWalk_ok key value lastElementIndex i elements :
  lastElementIndex = Z.of_nat (i + length elements) - 1 →
  (∀ t, last elements = Some t → (Put t key value).2 = None) →
  (putWalk key value lastElementIndex i elements).2 = None.
Proof.
  revert i. induction elements as [|element rest IH]; intros i Hlast Hok; simpl.
  { done. }
  destruct (Put element key value) as [element' err] eqn:Hcall.
  assert ((let '(rest', evs, r) := putWalk key value lastElementIndex (S i) rest in
           (element' :: rest',
            EvPut i key value err :: warnIf (CouldNotPut key i) err ++ evs, r)).2
          = None) as Hgo.
  { destruct (putWalk key value lastElementIndex (S i) rest) as [[rest' evs] r0] eqn:Hrest.
    simpl. change r0 with (rest', evs, r0).2. rewrite <- Hrest. apply (IH (S i)).
    - rewrite Hlast. simpl. lia.
    - intros t Ht. apply Hok. by destruct rest. }
  destruct err as [e0|]; [|by destruct (Z.of_nat i =? lastElementIndex)].
  destruct (Z.of_nat i =? lastElementIndex) eqn:Hi; [|done].
  apply Z.eqb_eq in Hi. rewrite Hlast in Hi. apply last_position in Hi as ->.
  specialize (Hok element eq_refl). by rewrite Hcall in Hok.
Qed.

Lemma putBatchWalk_ok values lastElementIndex i elements :
  lastElementIndex = Z.of_nat (i + length elements) - 1 →
  (∀ t, last elements = Some t → (PutBatch t values).2 = None) →
  (putBatchWalk values lastElementIndex i elements).2 = None.
Proof.
  revert i. induction elements as [|element rest IH]; intros i Hlast Hok; simpl.
  { done. }
  destruct (PutBatch element values) as [element' err] eqn:Hcall.
  assert ((let '(rest', evs, r) := putBatchWalk values lastElementIndex (S i) rest in
           (element' :: rest',
            EvPutBatch i values err :: warnIf (CouldNotPutBatch i) err ++ evs, r)).2
          = None) as Hgo.
  { destruct (putBatchWalk values lastElementIndex (S i) rest)
      as [[rest' evs] r0] eqn:Hrest.
    simpl. change r0 with (rest', evs, r0).2. rewrite <- Hrest. apply (IH (S i)).
    - rewrite Hlast. simpl. lia.
    - intros t Ht. apply Hok. by destruct rest. }
  destruct err as [e0|]; [|by destruct (Z.of_nat i =? lastElementIndex)].
  destruct (Z.of_nat i =? lastElementIndex) eqn:Hi; [|done].
  apply Z.eqb_eq in Hi. rewrite Hlast in Hi. apply last_position in Hi as ->.
  specialize (Hok element eq_refl). by rewrite Hcall in Hok.
Qed.

(** The kind of the caller's container does not change during the walk. *)
Lemma batchWalk_coercible lastElementIndex i elements todo values refill :
  (InterfaceToMapInterfaceInterface
     (batchWalk lastElementIndex i elements todo values refill).1.2).2 = None ↔
  (InterfaceToMapInterfaceInterface values).2 = None.
Proof.
  apply (batchWalk_cases lastElementIndex
    (λ i elements todo values refill res,
       (InterfaceToMapInterfaceInterface res.1.2).2 = None ↔
       (InterfaceToMapInterfaceInterface values).2 = None)); simpl.
  - done.
  - intros. apply mutated_coercible.
  - intros. apply mutated_coercible.
  - intros i' element rest td vs rf element' out msg err rest' evs vs' r _ _ _ _ IH.
    rewrite IH. apply mutated_coercible.
Qed.

(** When every operation of the last store succeeds, no operation of the
    engine returns an error, whatever the stores in front of it and the
    missing-value cache return (the payloads of the batch operations being of
    the kind the engine can read). *)
Lemma no_error_when_terminal_succeeds s :
  terminalSucceeds (chain s) →
  (∀ key, (ChainKvStore_Contains s key).2.2 = None) ∧
  (∀ key value, (ChainKvStore_Get s key value).2.2 = None) ∧
  (∀ keys values,
     (InterfaceToInterfaceSlice keys).2 = None →
     (InterfaceToMapInterfaceInterface values).2 = None →
     (ChainKvStore_GetBatch s keys values).2.2 = None) ∧
  (∀ key value, (ChainKvStore_Put s key value).2 = None) ∧
  (∀ values,
     (missingCacheEnabled s = true →
      (InterfaceToMapInterfaceInterface values).2 = None) →
     (ChainKvStore_PutBatch s values).2 = None).
Proof.
  intros Hterm.
  assert (lastElementIndexOf (chain s) = Z.of_nat (0 + length (chain s)) - 1) as Hlast
    by done.
  split_and!.
  - intros key. unfold ChainKvStore_Contains.
    destruct (if missingCacheEnabled s then missingCacheContains (missingCache s) key
              else (missingCache s, [], false)) as [[cache1 log1] cached].
    destruct cached; [done|].
    pose proof (containsWalk_ok key _ 0 (chain s) Hlast) as Hwalk.
    destruct (containsWalk key (lastElementIndexOf (chain s)) 0 (chain s))
      as [[elements log2] [r|]]; simpl in *.
    + apply Hwalk; [|done]. intros t Ht. by destruct (Hterm t Ht) as (H1 & _).
    + by destruct (if missingCacheEnabled s then missingCachePut cache1 key
                   else (cache1, [])).
  - intros key value. unfold ChainKvStore_Get.
    destruct (if missingCacheEnabled s then missingCacheContains (missingCache s) key
              else (missingCache s, [], false)) as [[cache1 log1] cached].
    destruct cached; [done|].
    pose proof (getWalk_ok key value _ 0 (chain s) Hlast) as Hwalk.
    destruct (getWalk key value (lastElementIndexOf (chain s)) 0 (chain s))
      as [[[elements log2] value'] [e|found|]]; simpl in *.
    + exfalso. apply (Hwalk (λ t Ht v, proj1 (proj2 (Hterm t Ht)) key v) e). done.
    + by destruct (propagatePut key value' found elements).
    + by destruct (if missingCacheEnabled s then missingCachePut cache1 key
                   else (cache1, [])).
  - intros keys values Hkeys Hvalues.
    destruct (GetBatch_run s keys values)
      as [ l e Hk
         | | todo cache1 log1 todo1 cachedMissing elements log2 values2 e Hk Hlookup Hne Hwalk
         | todo cache1 log1 todo1 cachedMissing elements log2 values2 todo2 refill found
             mii e Hk Hlookup Hne Hwalk Hmii
         | ]; simpl; try done.
    + by rewrite Hk in Hkeys.
    + exfalso.
      apply (batchWalk_ok _ 0 (chain s) todo1 values ∅ Hlast
               (λ t Ht td vs, proj1 (proj2 (proj2 (Hterm t Ht))) td vs) e).
      by rewrite Hwalk.
    + exfalso.
      pose proof (batchWalk_coercible (lastElementIndexOf (chain s)) 0 (chain s)
                    todo1 values ∅) as Hco.
      rewrite Hwalk in Hco. simpl in Hco. apply Hco in Hvalues.
      by rewrite Hmii in Hvalues.
  - intros key value. unfold ChainKvStore_Put.
    pose proof (putWalk_ok key value _ 0 (chain s) Hlast) as Hwalk.
    destruct (putWalk key value (lastElementIndexOf (chain s)) 0 (chain s))
      as [[elements log1] r]; simpl in *.
    rewrite Hwalk.
    + by destruct (if missingCacheEnabled s then missingCacheDelete (missingCache s) key
                   else (missingCache s, [])).
    + intros t Ht. by destruct (Hterm t Ht) as (_ & _ & _ & H4 & _).
  - intros values Hvalues. unfold ChainKvStore_PutBatch.
    pose proof (putBatchWalk_ok values _ 0 (chain s) Hlast) as Hwalk.
    destruct (putBatchWalk values (lastElementIndexOf (chain s)) 0 (chain s))
      as [[elements log1] r]; simpl in *.
    rewrite Hwalk.
    + destruct (missingCacheEnabled s); [|done].
      specialize (Hvalues eq_refl).
      destruct (InterfaceToMapInterfaceInterface values) as [mii [e|]]; [done|].
      by destruct (eraseAll (missingCache s) (map_to_list mii).*1).
    + intros t Ht. by destruct (Hterm t Ht) as (_ & _ & _ & _ & H5).
Qed.


(** ** What [GetBatch] returns *)

Lemma cachedLookup_NoDup s todo : NoDup (cachedLookup s todo).2.
Proof.
  unfold cachedLookup, missingCacheGetBatch.
  destruct (missingCacheEnabled s); [|apply NoDup_nil_2].
  destruct (GetBatch (missingCache s) todo (PStrMap ∅)) as [[[cache' out] todo'] err].
  apply rangeKeys_NoDup.
Qed.

(** A successful [GetBatch] returns the [todo] left by the walk, followed by
    [cachedMissing]. *)
Lemma GetBatch_returns s keys values todo :
  InterfaceToInterfaceSlice keys = (todo, None) →
  (ChainKvStore_GetBatch s keys values).2.2 = None →
  (ChainKvStore_GetBatch s keys values).2.1
    = stillMissing s (cachedLookup s todo).1.2 values ++ (cachedLookup s todo).2.
Proof.
  intros Hkeys Hok. unfold stillMissing.
  destruct (GetBatch_run s keys values)
    as [ l e Hk
       | td cache1 log1 cachedMissing Hk Hlookup
       | td cache1 log1 todo1 cachedMissing elements log2 values2 e Hk Hlookup Hne Hwalk
       | td cache1 log1 todo1 cachedMissing elements log2 values2 todo2 refill found
           mii e Hk Hlookup Hne Hwalk Hmii
       | td cache1 log1 todo1 cachedMissing elements log2 values2 todo2 refill found
           mii elements3 log3 cache4 log4 Hk Hlookup Hne Hwalk Hmii Hback Hstore ];
    simpl in *; try done; rewrite Hkeys in Hk;
    apply (f_equal fst) in Hk; simpl in Hk; subst td.
  - by rewrite Hlookup.
  - rewrite Hlookup. simpl. destruct todo1 as [|k todo1]; [done|]. simpl.
    by rewrite Hwalk.
Qed.

(** C7, as the code has it: a successful [GetBatch] returns the [todo] left by
    the chain walk followed by [cachedMissing]; [cachedMissing] has no
    duplicates, and the result has none exactly when the [todo] left by the
    walk has none and shares no key with [cachedMissing]. *)
Theorem GetBatch_missing_is_todo_then_cached s keys values todo :
  InterfaceToInterfaceSlice keys = (todo, None) →
  (ChainKvStore_GetBatch s keys values).2.2 = None →
  let cachedMissing := (cachedLookup s todo).2 in
  let rest := stillMissing s (cachedLookup s todo).1.2 values in
  let missing := (ChainKvStore_GetBatch s keys values).2.1 in
  missing = rest ++ cachedMissing ∧
  NoDup cachedMissing ∧
  (NoDup missing ↔ NoDup rest ∧ ∀ k, k ∈ rest → k ∉ cachedMissing).
Proof.
  intros Hkeys Hok. simpl.
  rewrite (GetBatch_returns s keys values todo Hkeys Hok).
  split_and!; [done|apply cachedLookup_NoDup|].
  rewrite NoDup_app. pose proof (cachedLookup_NoDup s todo). tauto.
Qed.

(** C8: with the missing-value cache enabled, the keys a successful
    [GetBatch] reports missing on the word of the cache are the string keys
    of the [map[string]interface{}] the cache filled, returned as strings; so
    when none of the caller's keys is a string, none of them is among these
    entries. *)
Theorem GetBatch_cached_missing_are_strings s keys values todo :
  missingCacheEnabled s = true →
  InterfaceToInterfaceSlice keys = (todo, None) →
  (ChainKvStore_GetBatch s keys values).2.2 = None →
  let cachedMissing := (cachedLookup s todo).2 in
  let missing := (ChainKvStore_GetBatch s keys values).2.1 in
  (∃ m, mutated (PStrMap ∅) (GetBatch (missingCache s) todo (PStrMap ∅)).1.1.2 = PStrMap m ∧
        ∀ k, k ∈ cachedMissing ↔ ∃ str, k = KStr str ∧ is_Some (m !! str)) ∧
  (∀ k, k ∈ cachedMissing → k ∈ missing) ∧
  ((∀ k, k ∈ todo → ∀ str, k ≠ KStr str) → ∀ k, k ∈ cachedMissing → k ∉ todo).
Proof.
  intros Hen Hkeys Hok. simpl.
  rewrite (GetBatch_returns s keys values todo Hkeys Hok).
  assert (∃ m, mutated (PStrMap ∅) (GetBatch (missingCache s) todo (PStrMap ∅)).1.1.2
               = PStrMap m ∧
               ∀ k, k ∈ (cachedLookup s todo).2 ↔ ∃ str, k = KStr str ∧ is_Some (m !! str))
    as (m & Hm & Hcached).
  { unfold cachedLookup, missingCacheGetBatch. rewrite Hen.
    destruct (GetBatch (missingCache s) todo (PStrMap ∅)) as [[[cache' out] todo'] err].
    cbn [fst snd].
    assert (∃ m, mutated (PStrMap ∅) out = PStrMap m) as [m Hm].
    { destruct out; simpl; eauto. }
    exists m. split; [done|]. intros k. rewrite Hm, rangeKeys_spec. split.
    - intros (str & m' & [= <-] & -> & ?). eauto.
    - intros (str & -> & ?). eauto. }
  split_and!.
  - eauto.
  - intros k Hk. apply elem_of_app. by right.
  - intros Hnostr k [str [-> _]]%Hcached Hin. by apply (Hnostr _ Hin str).
Qed.


(** ** Stores that honour the contract of [GetBatch] *)

Lemma sameKind_mutated values vs callee :
  sameKind values vs → sameKind values (mutated vs callee).
Proof.
  unfold sameKind. destruct values, vs, callee; simpl; intros Heq; by simplify_eq.
Qed.

Lemma sameKind_refl values : sameKind values values.
Proof. unfold sameKind. by destruct values. Qed.

Lemma batchWalk_honoured lastElementIndex i elements todo values refill
    els evs values' todo' refill' found kind :
  (∀ t, t ∈ elements → honoursGetBatch kind t) →
  sameKind kind values →
  batchWalk lastElementIndex i elements todo values refill
    = (els, evs, values', BatchWalked todo' refill' found) →
  (∀ k, k ∈ todo' → k ∈ todo) ∧
  (∀ k, populated values k → populated values' k) ∧
  (∀ k, k ∈ todo → k ∉ todo' → populated values' k).
Proof.
  intros Hhon Hkind Hwalk.
  refine (batchWalk_cases lastElementIndex
    (λ i elements todo values refill res,
       ∀ els evs values' todo' refill' found,
         (∀ t, t ∈ elements → honoursGetBatch kind t) →
         sameKind kind values →
         res = (els, evs, values', BatchWalked todo' refill' found) →
         (∀ k, k ∈ todo' → k ∈ todo) ∧
         (∀ k, populated values k → populated values' k) ∧
         (∀ k, k ∈ todo → k ∉ todo' → populated values' k))
    _ _ _ _ i elements todo values refill els evs values' todo' refill' found
    Hhon Hkind Hwalk); clear.
  - intros i' td vs rf els evs values' todo' refill' found _ _ [= <- <- <- <- <- <-].
    split_and!; [done|done|]. by intros k ? ?.
  - intros; simplify_eq.
  - intros i' element rest td vs rf element' out msg err Hcall Hok Hnil
      els evs values' todo' refill' found Hhon Hkind [= <- <- <- <- <- <-].
    destruct (Hhon element (list_elem_of_here _ _) td vs Hkind) as [Hmono Hfound].
    rewrite Hcall in Hmono, Hfound. simpl in Hmono, Hfound.
    split_and!; [by intros k ?%elem_of_nil|done|].
    intros k Hk _. destruct err as [e|]; simpl in Hnil.
    + subst. by apply elem_of_nil in Hk.
    + subst. destruct (Hfound eq_refl) as [_ Hpop]. apply Hpop; [done|].
      by intros ?%elem_of_nil.
  - intros i' element rest td vs rf element' out msg err rest' evs0 vs' r Hcall Hok Hne
      Hrest IH els evs values' todo' refill' found Hhon Hkind [= <- <- <- ->].
    destruct (Hhon element (list_elem_of_here _ _) td vs Hkind) as [Hmono Hfound].
    rewrite Hcall in Hmono, Hfound. simpl in Hmono, Hfound.
    destruct (IH _ _ _ _ _ _ (λ t Ht, Hhon t (list_elem_of_further _ _ _ Ht))
                (sameKind_mutated _ _ out Hkind) eq_refl) as (IH1 & IH2 & IH3).
    assert (∀ k, k ∈ refillOf td msg err → k ∈ td) as Hsub.
    { destruct err; simpl; [done|]. by destruct (Hfound eq_refl). }
    split_and!.
    + intros k Hk. by apply Hsub, IH1.
    + intros k Hk. by apply IH2, Hmono.
    + intros k Hk Hnot.
      destruct (decide (k ∈ refillOf td msg err)) as [Hin|Hout]; [by apply IH3|].
      apply IH2. destruct err; simpl in Hout; [done|].
      destruct (Hfound eq_refl) as [_ Hpop]. by apply Hpop.
Qed.

(** What a successful [GetBatch] returns and populates, in terms of the
    lookup in the missing-value cache: only keys the walk was started with or
    keys of [cachedMissing], and an entry for every key the walk was started
    with that is not returned. *)
Lemma GetBatch_walked_keys s keys values todo :
  InterfaceToInterfaceSlice keys = (todo, None) →
  (∀ t, t ∈ chain s → honoursGetBatch values t) →
  (ChainKvStore_GetBatch s keys values).2.2 = None →
  (∀ k, k ∈ (ChainKvStore_GetBatch s keys values).2.1 →
        k ∈ (cachedLookup s todo).1.2 ∨ k ∈ (cachedLookup s todo).2) ∧
  (∀ k, k ∈ (cachedLookup s todo).2 → k ∈ (ChainKvStore_GetBatch s keys values).2.1) ∧
  (∀ k, k ∈ (cachedLookup s todo).1.2 →
        k ∉ (ChainKvStore_GetBatch s keys values).2.1 →
        populated (ChainKvStore_GetBatch s keys values).1.1.2 k).
Proof.
  intros Hkeys Hhon Hok.
  destruct (GetBatch_run s keys values)
    as [ l e Hk
       | td cache1 log1 cachedMissing Hk Hlookup
       | td cache1 log1 todo1 cachedMissing elements log2 values2 e Hk Hlookup Hne Hwalk
       | td cache1 log1 todo1 cachedMissing elements log2 values2 todo2 refill found
           mii e Hk Hlookup Hne Hwalk Hmii
       | td cache1 log1 todo1 cachedMissing elements log2 values2 todo2 refill found
           mii elements3 log3 cache4 log4 Hk Hlookup Hne Hwalk Hmii Hback Hstore ];
    simpl in *; try done; rewrite Hkeys in Hk;
    apply (f_equal fst) in Hk; simpl in Hk; subst td; rewrite Hlookup; simpl.
  - split_and!; [by right|done|]. by intros k ?%elem_of_nil.
  - destruct (batchWalk_honoured _ _ _ _ _ _ _ _ _ _ _ _ values Hhon
                (sameKind_refl values) Hwalk) as (H1 & H2 & H3).
    split_and!.
    + intros k [?|?]%elem_of_app; [left; by apply H1|by right].
    + intros k Hk. apply elem_of_app. by right.
    + intros k Hk Hnot. apply H3; [done|]. intros ?. apply Hnot, elem_of_app. by left.
Qed.

(** C2, as the code has it: when the stores honour the contract of
    [GetBatch] and the lookup in the missing-value cache, if that is enabled,
    succeeds and honours its contract, a successful call returns only keys of
    the caller or string forms of keys of the caller, and every key of the
    caller that is not returned, in its own form or in its string form, has an
    entry in the values container.  With the missing-value cache disabled the
    result is within the caller's keys and every caller's key outside it is
    populated. *)
Theorem GetBatch_missing_and_populated s keys values todo :
  InterfaceToInterfaceSlice keys = (todo, None) →
  (∀ t, t ∈ chain s → honoursGetBatch values t) →
  (missingCacheEnabled s = true →
   (GetBatch (missingCache s) todo (PStrMap ∅)).2 = None ∧
   honoursLookup (missingCache s)) →
  (ChainKvStore_GetBatch s keys values).2.2 = None →
  let missing := (ChainKvStore_GetBatch s keys values).2.1 in
  let values' := (ChainKvStore_GetBatch s keys values).1.1.2 in
  (∀ k, k ∈ missing → k ∈ todo ∨ ∃ k0, k0 ∈ todo ∧ k = KStr (CastKeyToString k0)) ∧
  (∀ k, k ∈ todo → k ∉ missing → KStr (CastKeyToString k) ∉ missing →
        populated values' k) ∧
  (missingCacheEnabled s = false →
   (∀ k, k ∈ missing → k ∈ todo) ∧
   (∀ k, k ∈ todo → k ∉ missing → populated values' k)).
Proof.
  intros Hkeys Hhon Hcache Hok. simpl.
  destruct (GetBatch_walked_keys s keys values todo Hkeys Hhon Hok)
    as (Hin & Hcached & Hpop).
  assert ((∀ k, k ∈ (cachedLookup s todo).1.2 → k ∈ todo) ∧
          (∀ k, k ∈ todo →
                k ∈ (cachedLookup s todo).1.2 ∨
                KStr (CastKeyToString k) ∈ (cachedLookup s todo).2) ∧
          (∀ k', k' ∈ (cachedLookup s todo).2 →
                 ∃ k, k ∈ todo ∧ k' = KStr (CastKeyToString k)) ∧
          (missingCacheEnabled s = false → (cachedLookup s todo).2 = []))
    as (Hsub & Hsplit & Hstr & Hoff).
  { unfold cachedLookup, missingCacheGetBatch.
    destruct (missingCacheEnabled s) eqn:Hen.
    - destruct (Hcache eq_refl) as [Herr Hlook]. specialize (Hlook todo Herr).
      destruct (GetBatch (missingCache s) todo (PStrMap ∅))
        as [[[cache' out] todo'] err]. simpl in *.
      destruct Hlook as (L1 & L2 & L3). by split_and!.
    - simpl. split_and!; [done|by left|by intros k' ?%elem_of_nil|done]. }
  split_and!.
  - intros k [Hk|Hk]%Hin; [left; by apply Hsub|right; by apply Hstr].
  - intros k Hk Hnot Hnotstr. apply Hpop; [|done].
    destruct (Hsplit k Hk) as [?|Hc]; [done|]. exfalso. by apply Hnotstr, Hcached.
  - intros Hdis. specialize (Hoff Hdis). split.
    + intros k [Hk|Hk]%Hin; [by apply Hsub|]. rewrite Hoff in Hk.
      by apply elem_of_nil in Hk.
    + intros k Hk Hnot. apply Hpop; [|done].
      destruct (Hsplit k Hk) as [?|Hc]; [done|]. rewrite Hoff in Hc.
      by apply elem_of_nil in Hc.
Qed.

(** ** Payloads the engine cannot read *)

(** A successful [PutBatch] walk has called every store from position [i] on
    and has not called the missing-value cache. *)
Lemma putBatchWalk_log values lastElementIndex i elements :
  (∀ ev, ev ∈ (putBatchWalk values lastElementIndex i elements).1.2 →
         touchesMissingCache ev = false) ∧
  ((putBatchWalk values lastElementIndex i elements).2 = None →
   ∀ j, (j < length elements)%nat →
        ∃ err, EvPutBatch (i + j) values err
                 ∈ (putBatchWalk values lastElementIndex i elements).1.2).
Proof.
  revert i. induction elements as [|element rest IH]; intros i; simpl.
  { split; [by intros ? ?%elem_of_nil|]. intros _ j Hj. simpl in Hj. lia. }
  destruct (PutBatch element values) as [element' err] eqn:Hcall.
  assert (
    (∀ ev, ev ∈ (let '(rest', evs, r) := putBatchWalk values lastElementIndex (S i) rest in
                 (element' :: rest',
                  EvPutBatch i values err :: warnIf (CouldNotPutBatch i) err ++ evs,
                  r)).1.2 → touchesMissingCache ev = false) ∧
    ((let '(rest', evs, r) := putBatchWalk values lastElementIndex (S i) rest in
      (element' :: rest',
       EvPutBatch i values err :: warnIf (CouldNotPutBatch i) err ++ evs, r)).2 = None →
     ∀ j, (j < S (length rest))%nat →
          ∃ err0, EvPutBatch (i + j) values err0
                    ∈ (let '(rest', evs, r) :=
                         putBatchWalk values lastElementIndex (S i) rest in
                       (element' :: rest',
                        EvPutBatch i values err
                          :: warnIf (CouldNotPutBatch i) err ++ evs, r)).1.2)) as Hgo.
  { destruct (IH (S i)) as [IH1 IH2].
    destruct (putBatchWalk values lastElementIndex (S i) rest) as [[rest' evs] r].
    simpl in *. split.
    - intros ev [->|[Hin|Hin]%elem_of_app]%elem_of_cons; [done| |by apply IH1].
      by apply warnIf_no_call in Hin as [_ ?].
    - intros -> [|j] Hj.
      + exists err. rewrite Nat.add_0_r. left.
      + destruct (IH2 eq_refl j ltac:(lia)) as [err0 Hin]. exists err0.
        right. apply elem_of_app. right.
        by replace (i + S j)%nat with (S i + j)%nat by lia. }
  destruct err as [e|]; [|by destruct (Z.of_nat i =? lastElementIndex)].
  destruct (Z.of_nat i =? lastElementIndex); [|done].
  simpl. split; [|done]. by intros ev ->%list_elem_of_singleton.
Qed.

(** The walk of [PutBatch] fails only with the wrapped error of a store. *)
Lemma putBatchWalk_error values lastElementIndex i elements e :
  (putBatchWalk values lastElementIndex i elements).2 = Some e →
  ∃ j e0, e = Errorf (CouldNotPutBatch j) e0.
Proof.
  revert i. induction elements as [|element rest IH]; intros i; simpl; [done|].
  destruct (PutBatch element values) as [element' err].
  assert ((let '(rest', evs, r) := putBatchWalk values lastElementIndex (S i) rest in
           (element' :: rest',
            EvPutBatch i values err :: warnIf (CouldNotPutBatch i) err ++ evs, r)).2
          = Some e → ∃ j e0, e = Errorf (CouldNotPutBatch j) e0) as Hgo.
  { specialize (IH (S i)).
    by destruct (putBatchWalk values lastElementIndex (S i) rest) as [[rest' evs] r]. }
  destruct err as [e1|]; [|by destruct (Z.of_nat i =? lastElementIndex)].
  destruct (Z.of_nat i =? lastElementIndex); [|done].
  simpl. intros [= <-]. eauto.
Qed.

(** The walk of [GetBatch] asks the first store of a chain that has one. *)
Lemma batchWalk_first lastElementIndex i (element : T) (rest : list T) todo values refill :
  ∃ td out rep err,
    EvGetBatch i td out rep err
      ∈ (batchWalk lastElementIndex i (element :: rest) todo values refill).1.1.2.
Proof.
  simpl. destruct (GetBatch element todo values) as [[[element' out] missing] err].
  exists todo, (mutated values out), missing, err.
  assert (EvGetBatch i todo (mutated values out) missing err
            ∈ (if (length (refillOf todo missing err) =? 0)%nat
               then (element' :: rest,
                     EvGetBatch i todo (mutated values out) missing err
                       :: warnIf (CouldNotGetBatch i) err,
                     mutated values out,
                     BatchWalked (refillOf todo missing err)
                       (<[i := refillOf todo missing err]> refill) i)
               else
                 let '(rest', evs, values'', r) :=
                   batchWalk lastElementIndex (S i) rest (refillOf todo missing err)
                     (mutated values out) (<[i := refillOf todo missing err]> refill) in
                 (element' :: rest',
                  (EvGetBatch i todo (mutated values out) missing err
                     :: warnIf (CouldNotGetBatch i) err) ++ evs, values'', r)).1.1.2)
    as Hgo.
  { destruct (length (refillOf todo missing err) =? 0)%nat; [left|].
    destruct (batchWalk lastElementIndex (S i) rest _ _ _) as [[[rest' evs] values''] r].
    left. }
  destruct err as [e|]; [|by destruct (Z.of_nat i =? lastElementIndex)].
  destruct (Z.of_nat i =? lastElementIndex); [left|done].
Qed.

(** C1, as the code has it: keys that cannot be read fail [GetBatch] before
    any store or the missing-value cache is called.  Values that cannot be
    read fail [GetBatch] only after the cache lookup and the chain walk, with
    no write to a store or to the cache; and they fail [PutBatch] only with
    the missing-value cache enabled and only after every store of the chain
    was written, with no call to the cache. *)
Theorem coercion_failures s :
  (∀ keys values e,
     (InterfaceToInterfaceSlice keys).2 = Some e →
     ChainKvStore_GetBatch s keys values
       = (s, values, [], ([], Some (Errorf CanNotMorphKeys e)))) ∧
  (∀ keys values s' values' log missing e,
     ChainKvStore_GetBatch s keys values
       = (s', values', log, (missing, Some (Errorf CanNotCastResultValues e))) →
     (InterfaceToMapInterfaceInterface values).2 ≠ None ∧
     (∀ ev, ev ∈ log → writesTier ev = false ∧ writesMissingCache ev = false) ∧
     (chain s ≠ [] → ∃ td out rep err, EvGetBatch 0 td out rep err ∈ log)) ∧
  (∀ values s' log e,
     ChainKvStore_PutBatch s values = (s', log, Some (Errorf CanNotCastValues e)) →
     missingCacheEnabled s = true ∧
     (InterfaceToMapInterfaceInterface values).2 = Some e ∧
     missingCache s' = missingCache s ∧
     (∀ ev, ev ∈ log → touchesMissingCache ev = false) ∧
     (∀ i, (i < length (chain s))%nat → ∃ err, EvPutBatch i values err ∈ log)).
Proof.
  split_and!.
  - intros keys values e Hkeys. unfold ChainKvStore_GetBatch.
    destruct (InterfaceToInterfaceSlice keys) as [todo err]. simpl in Hkeys. by subst.
  - intros keys values s' values' log missing e Hrun.
    pose proof (GetBatch_run s keys values) as Hcases. rewrite Hrun in Hcases.
    inversion Hcases as
      [ | | todo cache1 log1 todo1 cachedMissing elements log2 values2 e' Hkeys Hlookup
            Hne Hwalk
      | todo cache1 log1 todo1 cachedMissing elements log2 values2 todo2 refill found mii e'
          Hkeys Hlookup Hne Hwalk Hmii
      | ]; subst.
    { by destruct (batchWalk_failed _ _ _ _ _ _ _ _ _ _ Hwalk)
        as (? & ? & ? & ? & ? & _ & [=] & _). }
    split_and!.
    + intros Hco.
      pose proof (batchWalk_coercible (lastElementIndexOf (chain s)) 0 (chain s)
                    todo1 values ∅) as Hiff.
      rewrite Hwalk in Hiff. simpl in Hiff. apply Hiff in Hco. by rewrite Hmii in Hco.
    + intros ev [Hin|Hin]%elem_of_app.
      * pose proof (cachedLookup_log s todo ev) as Hlog.
        rewrite Hlookup in Hlog. destruct (Hlog Hin) as [Ht Hw]. split; [|done].
        by destruct ev.
      * destruct (batchWalk_reads_only_elem _ _ _ _ _ _ _ _ _ _ _ Hwalk Hin) as [Hw Hc].
        split; [done|]. by destruct ev.
    + intros Hchain. destruct (chain s) as [|element rest] eqn:Hels; [done|].
      destruct (batchWalk_first (lastElementIndexOf (element :: rest)) 0 element rest
                  todo1 values ∅) as (td & out & rep & err & Hin).
      rewrite Hwalk in Hin. exists td, out, rep, err. apply elem_of_app. by right.
  - intros values s' log e. unfold ChainKvStore_PutBatch.
    pose proof (putBatchWalk_log values (lastElementIndexOf (chain s)) 0 (chain s))
      as [Hquiet Hall].
    destruct (putBatchWalk values (lastElementIndexOf (chain s)) 0 (chain s))
      as [[elements log1] [e1|]] eqn:Hwalk; simpl in *.
    { intros [= <- <- ->].
      pose proof (putBatchWalk_error values (lastElementIndexOf (chain s)) 0 (chain s)
                    (Errorf CanNotCastValues e)) as Herr.
      rewrite Hwalk in Herr. by destruct (Herr eq_refl) as (? & ? & [=]). }
    destruct (missingCacheEnabled s); [|done].
    destruct (InterfaceToMapInterfaceInterface values) as [mii [e2|]] eqn:Hmii.
    + intros [= <- <- <-]. split_and!; try done. by apply Hall.
    + by destruct (eraseAll (missingCache s) (map_to_list mii).*1).
Qed.


(** ** Put *)

(** A successful [Put] walk has called every store from position [i] on and
    has not called the missing-value cache. *)
Lemma putWalk_log key value lastElementIndex i elements :
  (∀ ev, ev ∈ (putWalk key value lastElementIndex i elements).1.2 →
         touchesMissingCache ev = false) ∧
  ((putWalk key value lastElementIndex i elements).2 = None →
   ∀ j, (j < length elements)%nat →
        ∃ err, EvPut (i + j) key value err
                 ∈ (putWalk key value lastElementIndex i elements).1.2).
Proof.
  revert i. induction elements as [|element rest IH]; intros i; simpl.
  { split; [by intros ? ?%elem_of_nil|]. intros _ j Hj. simpl in Hj. lia. }
  destruct (Put element key value) as [element' err] eqn:Hcall.
  assert (
    (∀ ev, ev ∈ (let '(rest', evs, r) := putWalk key value lastElementIndex (S i) rest in
                 (element' :: rest',
                  EvPut i key value err :: warnIf (CouldNotPut key i) err ++ evs,
                  r)).1.2 → touchesMissingCache ev = false) ∧
    ((let '(rest', evs, r) := putWalk key value lastElementIndex (S i) rest in
      (element' :: rest',
       EvPut i key value err :: warnIf (CouldNotPut key i) err ++ evs, r)).2 = None →
     ∀ j, (j < S (length rest))%nat →
          ∃ err0, EvPut (i + j) key value err0
                    ∈ (let '(rest', evs, r) :=
                         putWalk key value lastElementIndex (S i) rest in
                       (element' :: rest',
                        EvPut i key value err
                          :: warnIf (CouldNotPut key i) err ++ evs, r)).1.2)) as Hgo.
  { destruct (IH (S i)) as [IH1 IH2].
    destruct (putWalk key value lastElementIndex (S i) rest) as [[rest' evs] r].
    simpl in *. split.
    - intros ev [->|[Hin|Hin]%elem_of_app]%elem_of_cons; [done| |by apply IH1].
      by apply warnIf_no_call in Hin as [_ ?].
    - intros -> [|j] Hj.
      + exists err. rewrite Nat.add_0_r. left.
      + destruct (IH2 eq_refl j ltac:(lia)) as [err0 Hin]. exists err0.
        right. apply elem_of_app. right.
        by replace (i + S j)%nat with (S i + j)%nat by lia. }
  destruct err as [e|]; [|by destruct (Z.of_nat i =? lastElementIndex)].
  destruct (Z.of_nat i =? lastElementIndex); [|done].
  simpl. split; [|done]. by intros ev ->%list_elem_of_singleton.
Qed.

(** C4, as the code has it: a successful [Put] with the missing-value cache
    enabled has written every store of the chain and only then asked the
    cache, once, to delete the key; the error of that delete is logged and
    not returned.  When the delete succeeded, on a cache whose successful
    delete removes the key, the cache does not contain the key after [Put]. *)
Theorem Put_then_invalidate s key value s' log :
  ChainKvStore_Put s key value = (s', log, None) →
  missingCacheEnabled s = true →
  ∃ writes derr,
    log = writes ++ EvMissingDelete key derr
                      :: warnIf (CouldNotEraseCachedEmptyValue key) derr ∧
    (∀ ev, ev ∈ writes → touchesMissingCache ev = false) ∧
    (∀ i, (i < length (chain s))%nat → ∃ err, EvPut i key value err ∈ writes) ∧
    Delete (missingCache s) key = (missingCache s', derr) ∧
    (derr = None →
     (∀ (c c' : C) k, Delete c k = (c', None) → (Contains c' k).1.2 = false) →
     (Contains (missingCache s') key).1.2 = false).
Proof.
  unfold ChainKvStore_Put. intros Hrun Hen. rewrite Hen in Hrun.
  pose proof (putWalk_log key value (lastElementIndexOf (chain s)) 0 (chain s))
    as [Hquiet Hall].
  destruct (putWalk key value (lastElementIndexOf (chain s)) 0 (chain s))
    as [[elements log1] [e|]]; [done|]. simpl in *.
  unfold missingCacheDelete in Hrun.
  destruct (Delete (missingCache s) key) as [cache' derr] eqn:Hdel.
  injection Hrun as <- <-. exists log1, derr. simpl.
  split_and!; [done|done|by apply Hall|done|].
  intros -> Hcontract. by eapply Hcontract.
Qed.


(** ** The chain without stores *)

Lemma eraseAll_log (cache : C) (l : list Key) :
  (∀ ev, ev ∈ (eraseAll cache l).2 → touchesTier ev = false) ∧
  (∀ k, k ∈ l → ∃ err, EvMissingDelete k err ∈ (eraseAll cache l).2).
Proof.
  revert cache. induction l as [|key rest IH]; intros cache; simpl.
  { split; [by intros ? ?%elem_of_nil|by intros ? ?%elem_of_nil]. }
  unfold missingCacheDelete.
  destruct (Delete cache key) as [cache' err].
  destruct (IH cache') as [IH1 IH2].
  destruct (eraseAll cache' rest) as [cache'' evs]. simpl in *. split.
  - intros ev [->|[Hin|Hin]%elem_of_app]%elem_of_cons; [done| |by apply IH1].
    by apply warnIf_no_call in Hin as [? _].
  - intros k [->|Hin]%elem_of_cons.
    + exists err. left.
    + destruct (IH2 k Hin) as [err0 Hin0]. exists err0.
      right. apply elem_of_app. by right.
Qed.

(** What the lookup in the missing-value cache returns, in terms of the keys
    it was asked for. *)
Lemma cachedLookup_keys s todo :
  (missingCacheEnabled s = true →
   (GetBatch (missingCache s) todo (PStrMap ∅)).2 = None ∧
   honoursLookup (missingCache s)) →
  (∀ k, k ∈ (cachedLookup s todo).1.2 → k ∈ todo) ∧
  (∀ k, k ∈ todo →
        k ∈ (cachedLookup s todo).1.2 ∨
        KStr (CastKeyToString k) ∈ (cachedLookup s todo).2) ∧
  (∀ k', k' ∈ (cachedLookup s todo).2 → ∃ k, k ∈ todo ∧ k' = KStr (CastKeyToString k)).
Proof.
  intros Hcache. unfold cachedLookup, missingCacheGetBatch.
  destruct (missingCacheEnabled s) eqn:Hen.
  - destruct (Hcache eq_refl) as [Herr Hlook]. specialize (Hlook todo Herr).
    destruct (GetBatch (missingCache s) todo (PStrMap ∅))
      as [[[cache' out] todo'] err]. simpl in *.
    destruct Hlook as (L1 & L2 & L3). by split_and!.
  - simpl. split_and!; [done|by left|by intros k' ?%elem_of_nil].
Qed.

(** C10, as the code has it: on a chain without stores no operation fails
    for the lack of a store, and no store is called.  [Contains] and [Get]
    answer [(false, nil)]; with the missing-value cache enabled the cache
    either already reports the key, or is told that the key is missing
    ([Put] of the marker), and its state afterwards is the state that call
    left.  [Put] and [PutBatch] return [nil] and leave the cache in the state
    the delete of the key (of every key of the values) left.  [GetBatch]
    returns without error the keys the cache passed on followed by the keys
    the cache reported: all of the caller's keys when the cache is disabled,
    and each of them in its own form or in its string form when the lookup
    in the cache succeeds and honours its contract. *)
Theorem empty_chain_operations s :
  chain s = [] →
  (∀ key,
     (ChainKvStore_Contains s key).2 = (false, None) ∧
     chain (ChainKvStore_Contains s key).1.1 = [] ∧
     (∀ ev, ev ∈ (ChainKvStore_Contains s key).1.2 → touchesTier ev = false) ∧
     (missingCacheEnabled s = false →
      missingCache (ChainKvStore_Contains s key).1.1 = missingCache s) ∧
     (missingCacheEnabled s = true →
      ((Contains (missingCache s) key).1.2 = true ∧
       missingCache (ChainKvStore_Contains s key).1.1
         = (Contains (missingCache s) key).1.1) ∨
      ((Contains (missingCache s) key).1.2 = false ∧
       missingCache (ChainKvStore_Contains s key).1.1
         = (Put (Contains (missingCache s) key).1.1 key noValue).1 ∧
       EvMissingPut key noValue (Put (Contains (missingCache s) key).1.1 key noValue).2
         ∈ (ChainKvStore_Contains s key).1.2))) ∧
  (∀ key value,
     (ChainKvStore_Get s key value).2 = (false, None) ∧
     (ChainKvStore_Get s key value).1.1.2 = value ∧
     chain (ChainKvStore_Get s key value).1.1.1 = [] ∧
     (∀ ev, ev ∈ (ChainKvStore_Get s key value).1.2 → touchesTier ev = false) ∧
     (missingCacheEnabled s = false →
      missingCache (ChainKvStore_Get s key value).1.1.1 = missingCache s) ∧
     (missingCacheEnabled s = true →
      ((Contains (missingCache s) key).1.2 = true ∧
       missingCache (ChainKvStore_Get s key value).1.1.1
         = (Contains (missingCache s) key).1.1) ∨
      ((Contains (missingCache s) key).1.2 = false ∧
       missingCache (ChainKvStore_Get s key value).1.1.1
         = (Put (Contains (missingCache s) key).1.1 key noValue).1 ∧
       EvMissingPut key noValue (Put (Contains (missingCache s) key).1.1 key noValue).2
         ∈ (ChainKvStore_Get s key value).1.2))) ∧
  (∀ key value,
     (ChainKvStore_Put s key value).2 = None ∧
     chain (ChainKvStore_Put s key value).1.1 = [] ∧
     (∀ ev, ev ∈ (ChainKvStore_Put s key value).1.2 → touchesTier ev = false) ∧
     (missingCacheEnabled s = false →
      missingCache (ChainKvStore_Put s key value).1.1 = missingCache s) ∧
     (missingCacheEnabled s = true →
      missingCache (ChainKvStore_Put s key value).1.1 = (Delete (missingCache s) key).1 ∧
      EvMissingDelete key (Delete (missingCache s) key).2
        ∈ (ChainKvStore_Put s key value).1.2)) ∧
  (∀ values,
     (missingCacheEnabled s = true →
      (InterfaceToMapInterfaceInterface values).2 = None) →
     (ChainKvStore_PutBatch s values).2 = None ∧
     chain (ChainKvStore_PutBatch s values).1.1 = [] ∧
     (∀ ev, ev ∈ (ChainKvStore_PutBatch s values).1.2 → touchesTier ev = false) ∧
     (missingCacheEnabled s = false →
      missingCache (ChainKvStore_PutBatch s values).1.1 = missingCache s) ∧
     (missingCacheEnabled s = true →
      missingCache (ChainKvStore_PutBatch s values).1.1
        = (eraseAll (missingCache s)
             (map_to_list (InterfaceToMapInterfaceInterface values).1).*1).1 ∧
      ∀ k, populated values k →
           ∃ err, EvMissingDelete k err ∈ (ChainKvStore_PutBatch s values).1.2)) ∧
  (∀ keys values todo,
     InterfaceToInterfaceSlice keys = (todo, None) →
     (InterfaceToMapInterfaceInterface values).2 = None →
     (ChainKvStore_GetBatch s keys values).2
       = ((cachedLookup s todo).1.2 ++ (cachedLookup s todo).2, None) ∧
     (ChainKvStore_GetBatch s keys values).1.1.2 = values ∧
     chain (ChainKvStore_GetBatch s keys values).1.1.1 = [] ∧
     (∀ ev, ev ∈ (ChainKvStore_GetBatch s keys values).1.2 → touchesTier ev = false) ∧
     (missingCacheEnabled s = false →
      (ChainKvStore_GetBatch s keys values).2.1 = todo) ∧
     (missingCacheEnabled s = true →
      (GetBatch (missingCache s) todo (PStrMap ∅)).2 = None →
      honoursLookup (missingCache s) →
      (∀ k, k ∈ todo →
            k ∈ (ChainKvStore_GetBatch s keys values).2.1 ∨
            KStr (CastKeyToString k) ∈ (ChainKvStore_GetBatch s keys values).2.1) ∧
      (∀ k, k ∈ (ChainKvStore_GetBatch s keys values).2.1 →
            k ∈ todo ∨ ∃ k0, k0 ∈ todo ∧ k = KStr (CastKeyToString k0)))).
Proof.
  intros Hchain. split_and!.
  - intros key. unfold ChainKvStore_Contains, missingCacheContains, missingCachePut.
    rewrite Hchain. simpl.
    destruct (missingCacheEnabled s); simpl.
    + destruct (Contains (missingCache s) key) as [[cache1 found] err].
      destruct found; simpl.
      * split_and!; [done|done| |done|].
        -- intros ev [->|Hin]%elem_of_cons; [done|].
           by apply warnIf_no_call in Hin as [? _].
        -- intros _. by left.
      * destruct (Put cache1 key noValue) as [cache3 perr]. simpl.
        split_and!; [done|done| |done|].
        -- intros ev [->|[Hin|[->|Hin]%elem_of_cons]%elem_of_app]%elem_of_cons;
             [done| |done|]; by apply warnIf_no_call in Hin as [? _].
        -- intros _. right. split_and!; [done|done|].
           right. apply elem_of_app. right. left.
    + split_and!; [done|done|by intros ? ?%elem_of_nil|done|done].
  - intros key value. unfold ChainKvStore_Get, missingCacheContains, missingCachePut.
    rewrite Hchain. simpl.
    destruct (missingCacheEnabled s); simpl.
    + destruct (Contains (missingCache s) key) as [[cache1 found] err].
      destruct found; simpl.
      * split_and!; [done|done|done| |done|].
        -- intros ev [->|Hin]%elem_of_cons; [done|].
           by apply warnIf_no_call in Hin as [? _].
        -- intros _. by left.
      * destruct (Put cache1 key noValue) as [cache3 perr]. simpl.
        split_and!; [done|done|done| |done|].
        -- intros ev [->|[Hin|[->|Hin]%elem_of_cons]%elem_of_app]%elem_of_cons;
             [done| |done|]; by apply warnIf_no_call in Hin as [? _].
        -- intros _. right. split_and!; [done|done|].
           right. apply elem_of_app. right. left.
    + split_and!; [done|done|done|by intros ? ?%elem_of_nil|done|done].
  - intros key value. unfold ChainKvStore_Put, missingCacheDelete.
    rewrite Hchain. simpl.
    destruct (missingCacheEnabled s); simpl.
    + destruct (Delete (missingCache s) key) as [cache2 err]. simpl.
      split_and!; [done|done| |done|].
      * intros ev [->|Hin]%elem_of_cons; [done|].
        by apply warnIf_no_call in Hin as [? _].
      * intros _. split; [done|left].
    + split_and!; [done|done|by intros ? ?%elem_of_nil|done|done].
  - intros values Hvalues. unfold ChainKvStore_PutBatch, populated.
    rewrite Hchain. simpl.
    destruct (missingCacheEnabled s); simpl.
    + specialize (Hvalues eq_refl).
      destruct (InterfaceToMapInterfaceInterface values) as [mii [e|]]; [done|].
      simpl.
      destruct (eraseAll_log (missingCache s) (map_to_list mii).*1) as [Hquiet Hall].
      destruct (eraseAll (missingCache s) (map_to_list mii).*1) as [cache2 log2].
      simpl in *. split_and!; [done|done|done|done|].
      intros _. split; [done|]. intros k [v Hk]. apply Hall. apply list_elem_of_fmap.
      exists (k, v). split; [done|]. by apply elem_of_map_to_list.
    + split_and!; [done|done|by intros ? ?%elem_of_nil|done|done].
  - intros keys values todo Hkeys Hvalues.
    pose proof (cachedLookup_keys s todo) as Hlook.
    unfold ChainKvStore_GetBatch.
    rewrite Hkeys, Hchain.
    pose proof (cachedLookup_log s todo) as Hlog.
    assert (missingCacheEnabled s = false → cachedLookup s todo
              = (missingCache s, [], todo, [])) as Hoff.
    { intros Hoff. unfold cachedLookup. by rewrite Hoff. }
    destruct (cachedLookup s todo) as [[[cache1 log1] todo1] cachedMissing].
    simpl in *.
    assert (missingCacheEnabled s = true →
            (GetBatch (missingCache s) todo (PStrMap ∅)).2 = None →
            honoursLookup (missingCache s) →
            (∀ k, k ∈ todo → k ∈ todo1 ++ cachedMissing ∨
                              KStr (CastKeyToString k) ∈ todo1 ++ cachedMissing) ∧
            (∀ k, k ∈ todo1 ++ cachedMissing →
                  k ∈ todo ∨ ∃ k0, k0 ∈ todo ∧ k = KStr (CastKeyToString k0))) as Hon.
    { intros _ Herr Hhon. destruct (Hlook (λ _, conj Herr Hhon)) as (L1 & L2 & L3).
      split.
      - intros k Hk. destruct (L2 k Hk) as [?|?]; [left|right]; apply elem_of_app; auto.
      - intros k [?|?]%elem_of_app; [left; by apply L1|right; by apply L3]. }
    destruct todo1 as [|k todo1]; simpl.
    + split_and!; [done|done|done|by intros ev [? _]%Hlog| |done].
      intros Hdis. specialize (Hoff Hdis). by simplify_eq.
    + destruct (InterfaceToMapInterfaceInterface values) as [mii [e|]]; [done|].
      simpl.
      destruct (missingCacheEnabled s) eqn:Hen; simpl.
      * pose proof (missingCachePutBatch_log cache1 (k :: todo1)) as Hlog4.
        destruct (missingCachePutBatch cache1 (k :: todo1)) as [cache4 log4].
        simpl in *. split_and!; [done|done|done| |done|done].
        intros ev [Hin|Hin]%elem_of_app; [by destruct (Hlog _ Hin)|by apply Hlog4].
      * split_and!; [done|done|done| | |done].
        -- intros ev Hin. rewrite !app_nil_r in Hin. by destruct (Hlog _ Hin).
        -- intros _. specialize (Hoff eq_refl). simplify_eq. by rewrite app_nil_r.
Qed.

(** ** The chain walks of [Contains] and [Get], case by case *)

Lemma containsWalk_cases key (lastElementIndex : Z)
    (P : nat → list T → list T * list Event * option (bool * option error) → Prop) :
  (∀ i, P i [] ([], [], None)) →
  (∀ i element rest element' found e,
     Contains element key = (element', found, Some e) →
     Z.of_nat i = lastElementIndex →
     P i (element :: rest)
       (element' :: rest, [EvContains i key found (Some e)],
        Some (false, Some (Errorf (CouldNotCheckExistence key i) e)))) →
  (∀ i element rest element' err,
     Contains element key = (element', true, err) →
     err = None ∨ Z.of_nat i ≠ lastElementIndex →
     P i (element :: rest)
       (element' :: rest,
        EvContains i key true err :: warnIf (CouldNotCheckExistence key i) err,
        Some (true, None))) →
  (∀ i element rest element' err rest' evs r,
     Contains element key = (element', false, err) →
     err = None ∨ Z.of_nat i ≠ lastElementIndex →
     containsWalk key lastElementIndex (S i) rest = (rest', evs, r) →
     P (S i) rest (rest', evs, r) →
     P i (element :: rest)
       (element' :: rest',
        (EvContains i key false err :: warnIf (CouldNotCheckExistence key i) err) ++ evs,
        r)) →
  ∀ i elements, P i elements (containsWalk key lastElementIndex i elements).
Proof.
  intros Hnil Hfail Hfound Hnext i elements.
  revert i. induction elements as [|element rest IH]; intros i.
  { apply Hnil. }
  simpl. destruct (Contains element key) as [[element' found] err] eqn:Hcall.
  assert (∀ (Hok : err = None ∨ Z.of_nat i ≠ lastElementIndex),
    P i (element :: rest)
      (if found
       then (element' :: rest,
             EvContains i key found err :: warnIf (CouldNotCheckExistence key i) err,
             Some (true, None))
       else
         let '(rest', evs, r) := containsWalk key lastElementIndex (S i) rest in
         (element' :: rest',
          (EvContains i key found err :: warnIf (CouldNotCheckExistence key i) err)
            ++ evs, r))) as Hgo.
  { intros Hok. destruct found.
    - by eapply Hfound.
    - destruct (containsWalk key lastElementIndex (S i) rest) as [[rest' evs] r] eqn:Hrest.
      eapply Hnext; eauto. rewrite <- Hrest. apply IH. }
  destruct err as [e|].
  - destruct (Z.of_nat i =? lastElementIndex) eqn:Hlast.
    + apply Z.eqb_eq in Hlast. by eapply Hfail.
    + apply Z.eqb_neq in Hlast. apply Hgo. by right.
  - destruct (Z.of_nat i =? lastElementIndex); apply Hgo; by left.
Qed.

Lemma getWalk_cases key (lastElementIndex : Z)
    (P : nat → list T → Value → list T * list Event * Value * GetWalk → Prop) :
  (∀ i value, P i [] value ([], [], value, GetAbsent)) →
  (∀ i element rest value element' value' found e,
     Get element key value = (element', value', found, Some e) →
     Z.of_nat i = lastElementIndex →
     P i (element :: rest) value
       (element' :: rest, [EvGet i key value' found (Some e)], value',
        GetFailed (Errorf (CouldNotGet key i) e))) →
  (∀ i element rest value element' value' err,
     Get element key value = (element', value', true, err) →
     err = None ∨ Z.of_nat i ≠ lastElementIndex →
     P i (element :: rest) value
       (element' :: rest,
        EvGet i key value' true err :: warnIf (CouldNotGet key i) err,
        value', GetFound i)) →
  (∀ i element rest value element' value' err rest' evs value'' r,
     Get element key value = (element', value', false, err) →
     err = None ∨ Z.of_nat i ≠ lastElementIndex →
     getWalk key value' lastElementIndex (S i) rest = (rest', evs, value'', r) →
     P (S i) rest value' (rest', evs, value'', r) →
     P i (element :: rest) value
       (element' :: rest',
        (EvGet i key value' false err :: warnIf (CouldNotGet key i) err) ++ evs,
        value'', r)) →
  ∀ i elements value, P i elements value (getWalk key value lastElementIndex i elements).
Proof.
  intros Hnil Hfail Hfound Hnext i elements.
  revert i. induction elements as [|element rest IH]; intros i value.
  { apply Hnil. }
  simpl. destruct (Get element key value) as [[[element' value'] found] err] eqn:Hcall.
  assert (∀ (Hok : err = None ∨ Z.of_nat i ≠ lastElementIndex),
    P i (element :: rest) value
      (if found
       then (element' :: rest,
             EvGet i key value' found err :: warnIf (CouldNotGet key i) err,
             value', GetFound i)
       else
         let '(rest', evs, value'', r) :=
           getWalk key value' lastElementIndex (S i) rest in
         (element' :: rest',
          (EvGet i key value' found err :: warnIf (CouldNotGet key i) err) ++ evs,
          value'', r))) as Hgo.
  { intros Hok. destruct found.
    - by eapply Hfound.
    - destruct (getWalk key value' lastElementIndex (S i) rest)
        as [[[rest' evs] value''] r] eqn:Hrest.
      eapply Hnext; eauto. rewrite <- Hrest. apply IH. }
  destruct err as [e|].
  - destruct (Z.of_nat i =? lastElementIndex) eqn:Hlast.
    + apply Z.eqb_eq in Hlast. by eapply Hfail.
    + apply Z.eqb_neq in Hlast. apply Hgo. by right.
  - destruct (Z.of_nat i =? lastElementIndex); apply Hgo; by left.
Qed.

Lemma warnIf_logged m e l : Warnf m e ∈ warnIf m (Some e) ++ l.
Proof. simpl. left. Qed.

(** With a last store that answers, the walk of [Contains] passes over the
    stores that fail as over stores that do not have the key: it ends at the
    first store that reports the key, or after all of them. *)
Lemma containsWalk_tolerant key lastElementIndex i elements :
  lastElementIndex = Z.of_nat (i + length elements) - 1 →
  (∀ t, last elements = Some t → (Contains t key).2 = None) →
  (∀ j found e,
     EvContains j key found (Some e) ∈ (containsWalk key lastElementIndex i elements).1.2 →
     Warnf (CouldNotCheckExistence key j) e
       ∈ (containsWalk key lastElementIndex i elements).1.2) ∧
  (((containsWalk key lastElementIndex i elements).2 = Some (true, None) ∧
    ∃ (k : nat) err, (i ≤ k < i + length elements)%nat ∧
      EvContains k key true err ∈ (containsWalk key lastElementIndex i elements).1.2 ∧
      ∀ j, (i ≤ j < k)%nat →
           ∃ e, EvContains j key false e
                  ∈ (containsWalk key lastElementIndex i elements).1.2) ∨
   ((containsWalk key lastElementIndex i elements).2 = None ∧
    ∀ j, (i ≤ j < i + length elements)%nat →
         ∃ e, EvContains j key false e
                ∈ (containsWalk key lastElementIndex i elements).1.2)).
Proof.
  apply (containsWalk_cases key lastElementIndex
    (λ i elements res,
       lastElementIndex = Z.of_nat (i + length elements) - 1 →
       (∀ t, last elements = Some t → (Contains t key).2 = None) →
       (∀ j found e, EvContains j key found (Some e) ∈ res.1.2 →
                     Warnf (CouldNotCheckExistence key j) e ∈ res.1.2) ∧
       ((res.2 = Some (true, None) ∧
         ∃ (k : nat) err, (i ≤ k < i + length elements)%nat ∧
           EvContains k key true err ∈ res.1.2 ∧
           ∀ j, (i ≤ j < k)%nat → ∃ e, EvContains j key false e ∈ res.1.2) ∨
        (res.2 = None ∧
         ∀ j, (i ≤ j < i + length elements)%nat →
              ∃ e, EvContains j key false e ∈ res.1.2)))); clear i elements.
  - intros i _ _. simpl. split; [by intros ??? ?%elem_of_nil|].
    right. split; [done|]. intros j Hj. lia.
  - intros i element rest element' found e Hcall Hi Hlast Hok. exfalso.
    rewrite Hlast in Hi. apply (last_position i element rest) in Hi as ->.
    specialize (Hok element eq_refl). by rewrite Hcall in Hok.
  - intros i element rest element' err Hcall _ _ _. simpl. split.
    + intros j found e [[= -> -> <-]|Hin]%elem_of_cons; [right; left|].
      destruct err; [apply list_elem_of_singleton in Hin|apply elem_of_nil in Hin]; done.
    + left. split; [done|]. exists i, err.
      split; [simpl; lia|]. split; [left|]. intros j Hj. lia.
  - intros i element rest element' err rest' evs r Hcall Hok Hrest IH Hlast Hterm.
    simpl in *.
    destruct IH as [IHw IHr].
    { rewrite Hlast. lia. }
    { intros t Ht. apply Hterm. by destruct rest. }
    split.
    + intros j found e [[= -> -> <-]|Hin]%elem_of_cons; [right; left|].
      right. apply elem_of_app in Hin as [Hin|Hin].
      { destruct err; [apply list_elem_of_singleton in Hin|apply elem_of_nil in Hin];
          done. }
      apply elem_of_app. right. by eapply IHw.
    + assert (∀ ev, ev ∈ evs →
                ev ∈ EvContains i key false err
                       :: warnIf (CouldNotCheckExistence key i) err ++ evs) as Hlater.
      { intros ev Hin. right. apply elem_of_app. by right. }
      destruct IHr as [(-> & k & kerr & Hk & Hin & Hbefore)|(-> & Hall)]; [left|right].
      * split; [done|]. exists k, kerr.
        split; [simpl; lia|]. split; [by apply Hlater|].
        intros j Hj. destruct (decide (j = i)) as [->|Hne].
        -- exists err. left.
        -- destruct (Hbefore j ltac:(lia)) as [e He]. exists e. by apply Hlater.
      * split; [done|]. intros j Hj. destruct (decide (j = i)) as [->|Hne].
        -- exists err. left.
        -- destruct (Hall j ltac:(lia)) as [e He]. exists e. by apply Hlater.
Qed.

(** With a last store that answers, the walk of [Get] passes over the stores
    that fail as over stores that do not have the key. *)
Lemma getWalk_tolerant key value lastElementIndex i elements :
  lastElementIndex = Z.of_nat (i + length elements) - 1 →
  (∀ t, last elements = Some t → ∀ v, (Get t key v).2 = None) →
  (∀ j v found e,
     EvGet j key v found (Some e) ∈ (getWalk key value lastElementIndex i elements).1.1.2 →
     Warnf (CouldNotGet key j) e ∈ (getWalk key value lastElementIndex i elements).1.1.2) ∧
  ((∃ (n : nat) err,
      (getWalk key value lastElementIndex i elements).2 = GetFound n ∧
      (i ≤ n < i + length elements)%nat ∧
      EvGet n key (getWalk key value lastElementIndex i elements).1.2 true err
        ∈ (getWalk key value lastElementIndex i elements).1.1.2 ∧
      ∀ j, (i ≤ j < n)%nat →
           ∃ v e, EvGet j key v false e
                    ∈ (getWalk key value lastElementIndex i elements).1.1.2) ∨
   ((getWalk key value lastElementIndex i elements).2 = GetAbsent ∧
    ∀ j, (i ≤ j < i + length elements)%nat →
         ∃ v e, EvGet j key v false e
                  ∈ (getWalk key value lastElementIndex i elements).1.1.2)).
Proof.
  apply (getWalk_cases key lastElementIndex
    (λ i elements value res,
       lastElementIndex = Z.of_nat (i + length elements) - 1 →
       (∀ t, last elements = Some t → ∀ v, (Get t key v).2 = None) →
       (∀ j v found e, EvGet j key v found (Some e) ∈ res.1.1.2 →
                       Warnf (CouldNotGet key j) e ∈ res.1.1.2) ∧
       ((∃ (n : nat) err,
           res.2 = GetFound n ∧ (i ≤ n < i + length elements)%nat ∧
           EvGet n key res.1.2 true err ∈ res.1.1.2 ∧
           ∀ j, (i ≤ j < n)%nat → ∃ v e, EvGet j key v false e ∈ res.1.1.2) ∨
        (res.2 = GetAbsent ∧
         ∀ j, (i ≤ j < i + length elements)%nat →
              ∃ v e, EvGet j key v false e ∈ res.1.1.2)))); clear i elements value.
  - intros i value _ _. simpl. split; [by intros ???? ?%elem_of_nil|].
    right. split; [done|]. intros j Hj. lia.
  - intros i element rest value element' value' found e Hcall Hi Hlast Hok. exfalso.
    rewrite Hlast in Hi. apply (last_position i element rest) in Hi as ->.
    specialize (Hok element eq_refl value). by rewrite Hcall in Hok.
  - intros i element rest value element' value' err Hcall _ _ _. simpl. split.
    + intros j v found e [[= -> -> -> <-]|Hin]%elem_of_cons; [right; left|].
      destruct err; [apply list_elem_of_singleton in Hin|apply elem_of_nil in Hin]; done.
    + left. exists i, err. split; [done|]. split; [lia|]. split; [left|].
      intros j Hj. lia.
  - intros i element rest value element' value' err rest' evs value'' r Hcall Hok Hrest IH
      Hlast Hterm.
    simpl in *.
    destruct IH as [IHw IHr].
    { rewrite Hlast. lia. }
    { intros t Ht. apply Hterm. by destruct rest. }
    split.
    + intros j v found e [[= -> -> -> <-]|Hin]%elem_of_cons; [right; left|].
      right. apply elem_of_app in Hin as [Hin|Hin].
      { destruct err; [apply list_elem_of_singleton in Hin|apply elem_of_nil in Hin];
          done. }
      apply elem_of_app. right. by eapply IHw.
    + assert (∀ ev, ev ∈ evs →
                ev ∈ EvGet i key value' false err
                       :: warnIf (CouldNotGet key i) err ++ evs) as Hlater.
      { intros ev Hin. right. apply elem_of_app. by right. }
      destruct IHr as [(n & nerr & -> & Hn & Hin & Hbefore)|(-> & Hall)]; [left|right].
      * exists n, nerr. split; [done|]. split; [lia|]. split; [by apply Hlater|].
        intros j Hj. destruct (decide (j = i)) as [->|Hne].
        -- exists value', err. left.
        -- destruct (Hbefore j ltac:(lia)) as (v & e & He). exists v, e. by apply Hlater.
      * split; [done|]. intros j Hj. destruct (decide (j = i)) as [->|Hne].
        -- exists value', err. left.
        -- destruct (Hall j ltac:(lia)) as (v & e & He). exists v, e. by apply Hlater.
Qed.

(** The backfill of [Get] writes the value to every store in front of the
    one that had the key, and to no other. *)
Lemma propagatePut_log key value (found : nat) elements :
  (found ≤ length elements)%nat →
  (∀ j, (j < found)%nat →
        ∃ e, EvPut j key value e ∈ (propagatePut key value found elements).2) ∧
  (∀ ev, ev ∈ (propagatePut key value found elements).2 →
         touchesMissingCache ev = false ∧
         ∀ j k v e, ev = EvPut j k v e → (j < found)%nat ∧ k = key ∧ v = value) ∧
  length (propagatePut key value found elements).1 = length elements.
Proof.
  revert elements. induction found as [|n IH]; intros elements Hlen; simpl.
  { split_and!; [intros j Hj; lia|by intros ev ?%elem_of_nil|done]. }
  destruct (elements !! n) as [element|] eqn:Hn.
  2:{ apply lookup_ge_None in Hn. lia. }
  destruct (Put element key value) as [element' err].
  destruct (IH (<[n := element']> elements)) as (IH1 & IH2 & IH3).
  { rewrite length_insert. lia. }
  destruct (propagatePut key value n (<[n := element']> elements)) as [els evs].
  simpl in *. split_and!.
  - intros j Hj. destruct (decide (j = n)) as [->|Hne].
    + exists err. left.
    + destruct (IH1 j ltac:(lia)) as [e He]. exists e. right. apply elem_of_app. by right.
  - intros ev [->|[Hin|Hin]%elem_of_app]%elem_of_cons.
    + split; [done|]. intros j k v e [= <- <- <- <-]. split_and!; [lia|done|done].
    + pose proof (warnIf_no_call _ _ _ Hin) as [_ Hc]. split; [done|].
      intros j k v e ->.
      destruct err; [apply list_elem_of_singleton in Hin|apply elem_of_nil in Hin]; done.
    + destruct (IH2 ev Hin) as [Hc Hput]. split; [done|].
      intros j k v e Hev. destruct (Hput j k v e Hev) as (? & ? & ?).
      split_and!; [lia|done|done].
  - by rewrite IH3, length_insert.
Qed.

(** With a last store that answers, a store that fails during the walk of
    [GetBatch] is passed over with a warning, and the next store is asked for
    the same keys. *)
Lemma batchWalk_tolerant lastElementIndex i elements todo values refill :
  lastElementIndex = Z.of_nat (i + length elements) - 1 →
  (∀ t, last elements = Some t → ∀ td vs, (GetBatch t td vs).2 = None) →
  todo ≠ [] →
  (elements ≠ [] →
   ∃ out rep err,
     EvGetBatch i todo out rep err
       ∈ (batchWalk lastElementIndex i elements todo values refill).1.1.2) ∧
  (∀ j td out rep e,
     EvGetBatch j td out rep (Some e)
       ∈ (batchWalk lastElementIndex i elements todo values refill).1.1.2 →
     Warnf (CouldNotGetBatch j) e
       ∈ (batchWalk lastElementIndex i elements todo values refill).1.1.2 ∧
     ∃ out' rep' err',
       EvGetBatch (S j) td out' rep' err'
         ∈ (batchWalk lastElementIndex i elements todo values refill).1.1.2).
Proof.
  apply (batchWalk_cases lastElementIndex
    (λ i elements todo values refill res,
       lastElementIndex = Z.of_nat (i + length elements) - 1 →
       (∀ t, last elements = Some t → ∀ td vs, (GetBatch t td vs).2 = None) →
       todo ≠ [] →
       (elements ≠ [] → ∃ out rep err, EvGetBatch i todo out rep err ∈ res.1.1.2) ∧
       (∀ j td out rep e, EvGetBatch j td out rep (Some e) ∈ res.1.1.2 →
          Warnf (CouldNotGetBatch j) e ∈ res.1.1.2 ∧
          ∃ out' rep' err', EvGetBatch (S j) td out' rep' err' ∈ res.1.1.2)));
    clear i elements todo values refill.
  - intros i td vs rf _ _ _. simpl. split; [done|]. by intros ????? ?%elem_of_nil.
  - intros i element rest td vs rf element' out msg e Hcall Hi Hlast Hok. exfalso.
    rewrite Hlast in Hi. apply (last_position i element rest) in Hi as ->.
    specialize (Hok element eq_refl td vs). by rewrite Hcall in Hok.
  - intros i element rest td vs rf element' out msg err Hcall Hok Hnil Hlast Hterm Hne.
    simpl. destruct err as [e|]; simpl in Hnil; [done|]. simpl. split.
    + intros _. exists (mutated vs out), msg, None. left.
    + by intros j td' out' rep e [[=]|?%elem_of_nil]%elem_of_cons.
  - intros i element rest td vs rf element' out msg err rest' evs vs' r Hcall Hok Hne'
      Hrest IH Hlast Hterm Hne.
    simpl in *.
    destruct IH as [IHfirst IHw]; [rewrite Hlast; lia| |done|].
    { intros t Ht. apply Hterm. by destruct rest. }
    assert (∀ ev, ev ∈ evs →
              ev ∈ EvGetBatch i td (mutated vs out) msg err
                     :: warnIf (CouldNotGetBatch i) err ++ evs) as Hlater.
    { intros ev Hin. right. apply elem_of_app. by right. }
    split.
    + intros _. exists (mutated vs out), msg, err. left.
    + intros j td' out' rep e [[= -> -> -> -> <-]|Hin]%elem_of_cons.
      * split; [right; left|]. simpl in IHfirst.
        destruct IHfirst as (out1 & rep1 & err1 & Hfirst).
        { destruct Hok as [?|Hi]; [done|]. destruct rest; [|done].
          simpl in Hlast. lia. }
        exists out1, rep1, err1. by apply Hlater.
      * apply elem_of_app in Hin as [Hin|Hin].
        { destruct err; [apply list_elem_of_singleton in Hin|apply elem_of_nil in Hin];
            done. }
        destruct (IHw _ _ _ _ _ Hin) as [Hwarn (out1 & rep1 & err1 & Hnext)].
        split; [by apply Hlater|]. exists out1, rep1, err1. by apply Hlater.
Qed.

(** A [Put] walk that does not fail has logged a warning for every store
    that failed. *)
Lemma putWalk_warned key value lastElementIndex i elements :
  (putWalk key value lastElementIndex i elements).2 = None →
  ∀ j e, EvPut j key value (Some e) ∈ (putWalk key value lastElementIndex i elements).1.2 →
         Warnf (CouldNotPut key j) e ∈ (putWalk key value lastElementIndex i elements).1.2.
Proof.
  revert i. induction elements as [|element rest IH]; intros i; simpl.
  { by intros _ j e ?%elem_of_nil. }
  destruct (Put element key value) as [element' err].
  assert (
    (let '(rest', evs, r) := putWalk key value lastElementIndex (S i) rest in
     (element' :: rest',
      EvPut i key value err :: warnIf (CouldNotPut key i) err ++ evs, r)).2 = None →
    ∀ j e,
      EvPut j key value (Some e)
        ∈ (let '(rest', evs, r) := putWalk key value lastElementIndex (S i) rest in
           (element' :: rest',
            EvPut i key value err :: warnIf (CouldNotPut key i) err ++ evs, r)).1.2 →
      Warnf (CouldNotPut key j) e
        ∈ (let '(rest', evs, r) := putWalk key value lastElementIndex (S i) rest in
           (element' :: rest',
            EvPut i key value err :: warnIf (CouldNotPut key i) err ++ evs, r)).1.2)
    as Hgo.
  { specialize (IH (S i)).
    destruct (putWalk key value lastElementIndex (S i) rest) as [[rest' evs] r].
    simpl in *. intros -> j e [[= -> <-]|Hin]%elem_of_cons; [right; left|].
    right. apply elem_of_app in Hin as [Hin|Hin].
    { destruct err; [apply list_elem_of_singleton in Hin|apply elem_of_nil in Hin]; done. }
    apply elem_of_app. right. by apply IH. }
  destruct err as [e0|]; [|by destruct (Z.of_nat i =? lastElementIndex)].
  by destruct (Z.of_nat i =? lastElementIndex).
Qed.

(** A [PutBatch] walk that does not fail has logged a warning for every
    store that failed. *)
Lemma putBatchWalk_warned values lastElementIndex i elements :
  (putBatchWalk values lastElementIndex i elements).2 = None →
  ∀ j e, EvPutBatch j values (Some e) ∈ (putBatchWalk values lastElementIndex i elements).1.2 →
         Warnf (CouldNotPutBatch j) e
           ∈ (putBatchWalk values lastElementIndex i elements).1.2.
Proof.
  revert i. induction elements as [|element rest IH]; intros i; simpl.
  { by intros _ j e ?%elem_of_nil. }
  destruct (PutBatch element values) as [element' err].
  assert (
    (let '(rest', evs, r) := putBatchWalk values lastElementIndex (S i) rest in
     (element' :: rest',
      EvPutBatch i values err :: warnIf (CouldNotPutBatch i) err ++ evs, r)).2 = None →
    ∀ j e,
      EvPutBatch j values (Some e)
        ∈ (let '(rest', evs, r) := putBatchWalk values lastElementIndex (S i) rest in
           (element' :: rest',
            EvPutBatch i values err :: warnIf (CouldNotPutBatch i) err ++ evs, r)).1.2 →
      Warnf (CouldNotPutBatch j) e
        ∈ (let '(rest', evs, r) := putBatchWalk values lastElementIndex (S i) rest in
           (element' :: rest',
            EvPutBatch i values err :: warnIf (CouldNotPutBatch i) err ++ evs, r)).1.2)
    as Hgo.
  { specialize (IH (S i)).
    destruct (putBatchWalk values lastElementIndex (S i) rest) as [[rest' evs] r].
    simpl in *. intros -> j e [[= -> <-]|Hin]%elem_of_cons; [right; left|].
    right. apply elem_of_app in Hin as [Hin|Hin].
    { destruct err; [apply list_elem_of_singleton in Hin|apply elem_of_nil in Hin]; done. }
    apply elem_of_app. right. by apply IH. }
  destruct err as [e0|]; [|by destruct (Z.of_nat i =? lastElementIndex)].
  by destruct (Z.of_nat i =? lastElementIndex).
Qed.

Lemma getWalk_length key value lastElementIndex i elements :
  length (getWalk key value lastElementIndex i elements).1.1.1 = length elements.
Proof.
  apply (getWalk_cases key lastElementIndex
    (λ i elements value res, length res.1.1.1 = length elements)); simpl; try done.
  intros. by f_equal.
Qed.

Lemma missingCacheContains_log (cache : C) key ev :
  ev ∈ (missingCacheContains cache key).1.2 →
  touchesTier ev = false ∧
  (ev = EvMissingContains key (missingCacheContains cache key).2
          (Contains cache key).2 ∨ ∃ m e, ev = Warnf m e).
Proof.
  unfold missingCacheContains. destruct (Contains cache key) as [[cache' found] err].
  simpl. intros [->|Hin]%elem_of_cons; [by split; [|left]|].
  destruct err; [apply list_elem_of_singleton in Hin as ->|by apply elem_of_nil in Hin].
  split; [done|]. right. eauto.
Qed.

Lemma missingCachePut_log (cache : C) key ev :
  ev ∈ (missingCachePut cache key).2 →
  touchesTier ev = false ∧
  (ev = EvMissingPut key noValue (Put cache key noValue).2 ∨ ∃ m e, ev = Warnf m e).
Proof.
  unfold missingCachePut. destruct (Put cache key noValue) as [cache' err].
  simpl. intros [->|Hin]%elem_of_cons; [by split; [|left]|].
  destruct err; [apply list_elem_of_singleton in Hin as ->|by apply elem_of_nil in Hin].
  split; [done|]. right. eauto.
Qed.

(** [Contains] with a last store that answers. *)
Lemma Contains_tolerant s key :
  (∀ t, last (chain s) = Some t → (Contains t key).2 = None) →
  (ChainKvStore_Contains s key).2.2 = None ∧
  (∀ j found e,
     EvContains j key found (Some e) ∈ (ChainKvStore_Contains s key).1.2 →
     Warnf (CouldNotCheckExistence key j) e ∈ (ChainKvStore_Contains s key).1.2) ∧
  (((ChainKvStore_Contains s key).2.1 = false ∧
    missingCacheEnabled s = true ∧ (Contains (missingCache s) key).1.2 = true ∧
    ∀ ev, ev ∈ (ChainKvStore_Contains s key).1.2 → touchesTier ev = false) ∨
   ((ChainKvStore_Contains s key).2.1 = true ∧
    ∃ (n : nat) err, (n < length (chain s))%nat ∧
      EvContains n key true err ∈ (ChainKvStore_Contains s key).1.2 ∧
      ∀ j, (j < n)%nat →
           ∃ e, EvContains j key false e ∈ (ChainKvStore_Contains s key).1.2) ∨
   ((ChainKvStore_Contains s key).2.1 = false ∧
    ∀ j, (j < length (chain s))%nat →
         ∃ e, EvContains j key false e ∈ (ChainKvStore_Contains s key).1.2)).
Proof.
  intros Hterm. unfold ChainKvStore_Contains.
  assert (∀ ev, ev ∈ (if missingCacheEnabled s
                      then missingCacheContains (missingCache s) key
                      else (missingCache s, [], false)).1.2 →
                touchesTier ev = false) as Hlog1.
  { destruct (missingCacheEnabled s); [|by intros ev ?%elem_of_nil].
    intros ev Hin. by apply missingCacheContains_log in Hin as [? _]. }
  assert ((if missingCacheEnabled s
           then missingCacheContains (missingCache s) key
           else (missingCache s, [], false)).2 = true →
          missingCacheEnabled s = true ∧ (Contains (missingCache s) key).1.2 = true)
    as Hcached.
  { destruct (missingCacheEnabled s); [|done]. unfold missingCacheContains.
    by destruct (Contains (missingCache s) key) as [[cache' found] err]. }
  destruct (if missingCacheEnabled s then missingCacheContains (missingCache s) key
            else (missingCache s, [], false)) as [[cache1 log1] cached].
  simpl in Hlog1, Hcached.
  destruct cached; simpl.
  { split_and!; [done| |left; by destruct Hcached].
    intros j found e Hin. by apply Hlog1 in Hin. }
  destruct (containsWalk_tolerant key (lastElementIndexOf (chain s)) 0 (chain s) eq_refl Hterm)
    as [Hwarn Hres].
  destruct (containsWalk key (lastElementIndexOf (chain s)) 0 (chain s))
    as [[elements log2] r]. simpl in Hwarn, Hres.
  assert (∀ log3, (∀ ev, ev ∈ log3 → touchesTier ev = false) →
            ∀ j found e, EvContains j key found (Some e) ∈ log1 ++ log2 ++ log3 →
                         Warnf (CouldNotCheckExistence key j) e ∈ log1 ++ log2 ++ log3)
    as Hwarn3.
  { intros log3 Hlog3 j found e [Hin|[Hin|Hin]%elem_of_app]%elem_of_app.
    - by apply Hlog1 in Hin.
    - apply elem_of_app. right. apply elem_of_app. left. by eapply Hwarn.
    - by apply Hlog3 in Hin. }
  destruct Hres as [(-> & n & err & Hn & Hin & Hbefore)|(-> & Hall)]; simpl.
  - split_and!; [done| |].
    + intros j found e Hj. specialize (Hwarn3 [] ltac:(by intros ? ?%elem_of_nil) j found e).
      rewrite app_nil_r in Hwarn3. by apply Hwarn3.
    + right. left. split; [done|]. exists n, err. split; [lia|].
      split; [apply elem_of_app; by right|].
      intros j Hj. destruct (Hbefore j ltac:(lia)) as [e He]. exists e.
      apply elem_of_app. by right.
  - pose proof (missingCachePut_log cache1 key) as Hlog3.
    destruct (if missingCacheEnabled s then missingCachePut cache1 key else (cache1, []))
      as [cache3 log3] eqn:Hput. simpl.
    assert (∀ ev, ev ∈ log3 → touchesTier ev = false) as Hquiet.
    { destruct (missingCacheEnabled s).
      - rewrite Hput in Hlog3. intros ev Hin. by apply Hlog3 in Hin as [? _].
      - simplify_eq. by intros ev ?%elem_of_nil. }
    split_and!; [done|by apply Hwarn3|].
    right. right. split; [done|]. intros j Hj.
    destruct (Hall j ltac:(lia)) as [e He]. exists e.
    apply elem_of_app. right. apply elem_of_app. by left.
Qed.

Lemma propagatePut_events key value (found : nat) elements ev :
  ev ∈ (propagatePut key value found elements).2 →
  (∃ j e, ev = EvPut j key value e) ∨ (∃ m e, ev = Warnf m e).
Proof.
  revert elements. induction found as [|n IH]; intros elements; simpl.
  { by intros ?%elem_of_nil. }
  destruct (elements !! n) as [element|]; [|by intros ?%elem_of_nil].
  destruct (Put element key value) as [element' err].
  specialize (IH (<[n := element']> elements)).
  destruct (propagatePut key value n (<[n := element']> elements)) as [els evs].
  simpl in *. intros [->|[Hin|Hin]%elem_of_app]%elem_of_cons; [left; eauto| |by apply IH].
  right. destruct err; [apply list_elem_of_singleton in Hin as ->|by apply elem_of_nil in Hin].
  eauto.
Qed.

(** [Get] with a last store that answers. *)
Lemma Get_tolerant s key value :
  (∀ t, last (chain s) = Some t → ∀ v, (Get t key v).2 = None) →
  (ChainKvStore_Get s key value).2.2 = None ∧
  (∀ j v found e,
     EvGet j key v found (Some e) ∈ (ChainKvStore_Get s key value).1.2 →
     Warnf (CouldNotGet key j) e ∈ (ChainKvStore_Get s key value).1.2) ∧
  (((ChainKvStore_Get s key value).2.1 = false ∧
    (ChainKvStore_Get s key value).1.1.2 = value ∧
    missingCacheEnabled s = true ∧ (Contains (missingCache s) key).1.2 = true ∧
    ∀ ev, ev ∈ (ChainKvStore_Get s key value).1.2 → touchesTier ev = false) ∨
   ((ChainKvStore_Get s key value).2.1 = true ∧
    ∃ (n : nat) err, (n < length (chain s))%nat ∧
      EvGet n key (ChainKvStore_Get s key value).1.1.2 true err
        ∈ (ChainKvStore_Get s key value).1.2 ∧
      (∀ j, (j < n)%nat →
            ∃ v e, EvGet j key v false e ∈ (ChainKvStore_Get s key value).1.2) ∧
      (∀ j, (j < n)%nat →
            ∃ e, EvPut j key (ChainKvStore_Get s key value).1.1.2 e
                   ∈ (ChainKvStore_Get s key value).1.2)) ∨
   ((ChainKvStore_Get s key value).2.1 = false ∧
    ∀ j, (j < length (chain s))%nat →
         ∃ v e, EvGet j key v false e ∈ (ChainKvStore_Get s key value).1.2)).
Proof.
  intros Hterm. unfold ChainKvStore_Get.
  assert (∀ ev, ev ∈ (if missingCacheEnabled s
                      then missingCacheContains (missingCache s) key
                      else (missingCache s, [], false)).1.2 →
                touchesTier ev = false) as Hlog1.
  { destruct (missingCacheEnabled s); [|by intros ev ?%elem_of_nil].
    intros ev Hin. by apply missingCacheContains_log in Hin as [? _]. }
  assert ((if missingCacheEnabled s
           then missingCacheContains (missingCache s) key
           else (missingCache s, [], false)).2 = true →
          missingCacheEnabled s = true ∧ (Contains (missingCache s) key).1.2 = true)
    as Hcached.
  { destruct (missingCacheEnabled s); [|done]. unfold missingCacheContains.
    by destruct (Contains (missingCache s) key) as [[cache' found] err]. }
  destruct (if missingCacheEnabled s then missingCacheContains (missingCache s) key
            else (missingCache s, [], false)) as [[cache1 log1] cached].
  simpl in Hlog1, Hcached.
  destruct cached; simpl.
  { split_and!; [done| |left; by destruct Hcached].
    intros j v found e Hin. by apply Hlog1 in Hin. }
  destruct (getWalk_tolerant key value (lastElementIndexOf (chain s)) 0 (chain s)
              eq_refl Hterm) as [Hwarn Hres].
  pose proof (getWalk_length key value (lastElementIndexOf (chain s)) 0 (chain s)) as Hlen.
  destruct (getWalk key value (lastElementIndexOf (chain s)) 0 (chain s))
    as [[[elements log2] value'] r]. simpl in Hwarn, Hres, Hlen.
  assert (∀ log3, (∀ ev, ev ∈ log3 → ∀ j v found e, ev ≠ EvGet j key v found e) →
            ∀ j v found e, EvGet j key v found (Some e) ∈ log1 ++ log2 ++ log3 →
                           Warnf (CouldNotGet key j) e ∈ log1 ++ log2 ++ log3)
    as Hwarn3.
  { intros log3 Hlog3 j v found e [Hin|[Hin|Hin]%elem_of_app]%elem_of_app.
    - by apply Hlog1 in Hin.
    - apply elem_of_app. right. apply elem_of_app. left. by eapply Hwarn.
    - exfalso. by eapply (Hlog3 _ Hin). }
  destruct Hres as [(n & err & -> & Hn & Hin & Hbefore)|(-> & Hall)]; simpl.
  - destruct (propagatePut_log key value' n elements ltac:(lia)) as (Hput & Hputs & _).
    destruct (propagatePut key value' n elements) as [elements' log3] eqn:Hprop.
    simpl in *.
    split_and!; [done| |].
    + apply Hwarn3. intros ev Hev j v found e ->.
      pose proof (propagatePut_events key value' n elements (EvGet j key v found e))
        as Hevs.
      rewrite Hprop in Hevs.
      by destruct (Hevs Hev) as [(? & ? & [=])|(? & ? & [=])].
    + right. left. split; [done|]. exists n, err. split; [lia|].
      split; [apply elem_of_app; right; apply elem_of_app; by left|]. split.
      * intros j Hj. destruct (Hbefore j ltac:(lia)) as (v & e & He). exists v, e.
        apply elem_of_app. right. apply elem_of_app. by left.
      * intros j Hj. destruct (Hput j Hj) as [e He]. exists e.
        apply elem_of_app. right. apply elem_of_app. by right.
  - pose proof (missingCachePut_log cache1 key) as Hlog3.
    destruct (if missingCacheEnabled s then missingCachePut cache1 key else (cache1, []))
      as [cache3 log3] eqn:Hput. simpl.
    assert (∀ ev, ev ∈ log3 → touchesTier ev = false) as Hquiet.
    { destruct (missingCacheEnabled s).
      - rewrite Hput in Hlog3. intros ev Hin. by apply Hlog3 in Hin as [? _].
      - simplify_eq. by intros ev ?%elem_of_nil. }
    split_and!; [done| |].
    + apply Hwarn3. intros ev Hev j v found e ->. by apply Hquiet in Hev.
    + right. right. split; [done|]. intros j Hj.
      destruct (Hall j ltac:(lia)) as (v & e & He). exists v, e.
      apply elem_of_app. right. apply elem_of_app. by left.
Qed.

(** [GetBatch] with a last store that answers. *)
Lemma GetBatch_tolerant s keys values :
  terminalSucceeds (chain s) →
  (InterfaceToInterfaceSlice keys).2 = None →
  (InterfaceToMapInterfaceInterface values).2 = None →
  (ChainKvStore_GetBatch s keys values).2.2 = None ∧
  ∀ j td out rep e,
    EvGetBatch j td out rep (Some e) ∈ (ChainKvStore_GetBatch s keys values).1.2 →
    Warnf (CouldNotGetBatch j) e ∈ (ChainKvStore_GetBatch s keys values).1.2 ∧
    ∃ out' rep' err',
      EvGetBatch (S j) td out' rep' err' ∈ (ChainKvStore_GetBatch s keys values).1.2.
Proof.
  intros Hterm Hkeys Hvalues.
  destruct (no_error_when_terminal_succeeds s Hterm) as (_ & _ & Hok & _).
  specialize (Hok keys values Hkeys Hvalues). split; [done|].
  destruct (GetBatch_run s keys values)
    as [ l e Hk
       | td cache1 log1 cachedMissing Hk Hlookup
       | td cache1 log1 todo1 cachedMissing elements log2 values2 e Hk Hlookup Hne Hwalk
       | td cache1 log1 todo1 cachedMissing elements log2 values2 todo2 refill found
           mii e Hk Hlookup Hne Hwalk Hmii
       | td cache1 log1 todo1 cachedMissing elements log2 values2 todo2 refill found
           mii elements3 log3 cache4 log4 Hk Hlookup Hne Hwalk Hmii Hback Hstore ];
    simpl in *; try done.
  - intros j td' out rep e Hin.
    pose proof (cachedLookup_log s td (EvGetBatch j td' out rep (Some e))) as Hlog.
    rewrite Hlookup in Hlog. by destruct (Hlog Hin).
  - destruct (batchWalk_tolerant (lastElementIndexOf (chain s)) 0 (chain s) todo1 values ∅
                eq_refl (λ t Ht, proj1 (proj2 (proj2 (Hterm t Ht)))) Hne)
      as [_ Hwarn].
    rewrite Hwalk in Hwarn. simpl in Hwarn.
    intros j td' out rep e Hin.
    assert (EvGetBatch j td' out rep (Some e) ∈ log2) as Hin2.
    { apply elem_of_app in Hin as [Hin|Hin].
      { pose proof (cachedLookup_log s td (EvGetBatch j td' out rep (Some e))) as Hlog.
        rewrite Hlookup in Hlog. by destruct (Hlog Hin). }
      apply elem_of_app in Hin as [Hin|Hin]; [done|].
      apply elem_of_app in Hin as [Hin|Hin].
      { pose proof (propagateBatch_log mii refill found elements
                      (EvGetBatch j td' out rep (Some e))) as Hl.
        rewrite Hback in Hl.
        by destruct (Hl Hin) as [(? & ? & [=])|(? & ? & [=] & _)]. }
      destruct (missingCacheEnabled s && (0 <? length todo2)%nat).
      - pose proof (missingCachePutBatch_log cache1 todo2
                      (EvGetBatch j td' out rep (Some e))) as Hl.
        rewrite Hstore in Hl. by specialize (Hl Hin).
      - simplify_eq. by apply elem_of_nil in Hin. }
    destruct (Hwarn _ _ _ _ _ Hin2) as [Hw (out' & rep' & err' & Hnext)].
    split.
    + apply elem_of_app. right. apply elem_of_app. by left.
    + exists out', rep', err'. apply elem_of_app. right. apply elem_of_app. by left.
Qed.

Lemma missingCacheDelete_log (cache : C) key ev :
  ev ∈ (missingCacheDelete cache key).2 →
  touchesTier ev = false.
Proof.
  unfold missingCacheDelete. destruct (Delete cache key) as [cache' err].
  simpl. intros [->|Hin]%elem_of_cons; [done|]. by apply warnIf_no_call in Hin as [? _].
Qed.

(** [Put] with a last store that answers. *)
Lemma Put_tolerant s key value :
  (∀ t, last (chain s) = Some t → (Put t key value).2 = None) →
  (ChainKvStore_Put s key value).2 = None ∧
  (∀ j, (j < length (chain s))%nat →
        ∃ e, EvPut j key value e ∈ (ChainKvStore_Put s key value).1.2) ∧
  (∀ j e, EvPut j key value (Some e) ∈ (ChainKvStore_Put s key value).1.2 →
          Warnf (CouldNotPut key j) e ∈ (ChainKvStore_Put s key value).1.2).
Proof.
  intros Hterm. unfold ChainKvStore_Put.
  pose proof (putWalk_ok key value (lastElementIndexOf (chain s)) 0 (chain s) eq_refl Hterm)
    as Hok.
  pose proof (putWalk_log key value (lastElementIndexOf (chain s)) 0 (chain s))
    as [_ Hall].
  pose proof (putWalk_warned key value (lastElementIndexOf (chain s)) 0 (chain s) Hok)
    as Hwarn.
  specialize (Hall Hok).
  destruct (putWalk key value (lastElementIndexOf (chain s)) 0 (chain s))
    as [[elements log1] r]. simpl in *. subst r.
  pose proof (missingCacheDelete_log (missingCache s) key) as Hlog2.
  destruct (if missingCacheEnabled s then missingCacheDelete (missingCache s) key
            else (missingCache s, [])) as [cache2 log2] eqn:Hdel. simpl.
  assert (∀ ev, ev ∈ log2 → touchesTier ev = false) as Hquiet.
  { destruct (missingCacheEnabled s).
    - rewrite Hdel in Hlog2. by apply Hlog2.
    - simplify_eq. by intros ev ?%elem_of_nil. }
  split_and!; [done| |].
  - intros j Hj. destruct (Hall j Hj) as [e He]. exists e. apply elem_of_app. by left.
  - intros j e [Hin|Hin]%elem_of_app.
    + apply elem_of_app. left. by apply Hwarn.
    + by apply Hquiet in Hin.
Qed.

Lemma eraseAll_quiet (cache : C) (l : list Key) ev :
  ev ∈ (eraseAll cache l).2 → touchesTier ev = false.
Proof. apply eraseAll_log. Qed.

(** [PutBatch] with a last store that answers. *)
Lemma PutBatch_tolerant s values :
  (∀ t, last (chain s) = Some t → (PutBatch t values).2 = None) →
  (missingCacheEnabled s = true → (InterfaceToMapInterfaceInterface values).2 = None) →
  (ChainKvStore_PutBatch s values).2 = None ∧
  (∀ j, (j < length (chain s))%nat →
        ∃ e, EvPutBatch j values e ∈ (ChainKvStore_PutBatch s values).1.2) ∧
  (∀ j e, EvPutBatch j values (Some e) ∈ (ChainKvStore_PutBatch s values).1.2 →
          Warnf (CouldNotPutBatch j) e ∈ (ChainKvStore_PutBatch s values).1.2).
Proof.
  intros Hterm Hvalues. unfold ChainKvStore_PutBatch.
  pose proof (putBatchWalk_ok values (lastElementIndexOf (chain s)) 0 (chain s) eq_refl Hterm)
    as Hok.
  pose proof (putBatchWalk_log values (lastElementIndexOf (chain s)) 0 (chain s))
    as [_ Hall].
  pose proof (putBatchWalk_warned values (lastElementIndexOf (chain s)) 0 (chain s) Hok)
    as Hwarn.
  specialize (Hall Hok).
  destruct (putBatchWalk values (lastElementIndexOf (chain s)) 0 (chain s))
    as [[elements log1] r]. simpl in *. subst r.
  destruct (missingCacheEnabled s); [|by simpl].
  specialize (Hvalues eq_refl).
  destruct (InterfaceToMapInterfaceInterface values) as [mii [e|]]; [done|].
  pose proof (eraseAll_quiet (missingCache s) (map_to_list mii).*1) as Hquiet.
  destruct (eraseAll (missingCache s) (map_to_list mii).*1) as [cache2 log2]. simpl in *.
  split_and!; [done| |].
  - intros j Hj. destruct (Hall j Hj) as [e He]. exists e. apply elem_of_app. by left.
  - intros j e [Hin|Hin]%elem_of_app.
    + apply elem_of_app. left. by apply Hwarn.
    + by apply Hquiet in Hin.
Qed.

(** C3: when every operation of the last store succeeds, no operation of the
    engine returns an error, whatever the stores in front of it and the
    missing-value cache return, and every failed call is logged as a warning.
    For the reads a store that fails is passed over like a store without the
    key: [Contains] and [Get] answer from the first store that reports the
    key, after every store in front of it was asked, or answer [false] after
    all stores were asked ([Get] then writes the value back to the stores in
    front); in [GetBatch] the store after a failed one is asked for the same
    keys.  For the writes a store that fails is skipped: [Put] and [PutBatch]
    call every store of the chain.  The payloads of the batch operations are
    of the kind the engine can read. *)
Theorem nonterminal_failures_tolerated s :
  terminalSucceeds (chain s) →
  (∀ key,
     (ChainKvStore_Contains s key).2.2 = None ∧
     (∀ j found e,
        EvContains j key found (Some e) ∈ (ChainKvStore_Contains s key).1.2 →
        Warnf (CouldNotCheckExistence key j) e ∈ (ChainKvStore_Contains s key).1.2) ∧
     (((ChainKvStore_Contains s key).2.1 = false ∧
       missingCacheEnabled s = true ∧ (Contains (missingCache s) key).1.2 = true ∧
       ∀ ev, ev ∈ (ChainKvStore_Contains s key).1.2 → touchesTier ev = false) ∨
      ((ChainKvStore_Contains s key).2.1 = true ∧
       ∃ (n : nat) err, (n < length (chain s))%nat ∧
         EvContains n key true err ∈ (ChainKvStore_Contains s key).1.2 ∧
         ∀ j, (j < n)%nat →
              ∃ e, EvContains j key false e ∈ (ChainKvStore_Contains s key).1.2) ∨
      ((ChainKvStore_Contains s key).2.1 = false ∧
       ∀ j, (j < length (chain s))%nat →
            ∃ e, EvContains j key false e ∈ (ChainKvStore_Contains s key).1.2))) ∧
  (∀ key value,
     (ChainKvStore_Get s key value).2.2 = None ∧
     (∀ j v found e,
        EvGet j key v found (Some e) ∈ (ChainKvStore_Get s key value).1.2 →
        Warnf (CouldNotGet key j) e ∈ (ChainKvStore_Get s key value).1.2) ∧
     (((ChainKvStore_Get s key value).2.1 = false ∧
       (ChainKvStore_Get s key value).1.1.2 = value ∧
       missingCacheEnabled s = true ∧ (Contains (missingCache s) key).1.2 = true ∧
       ∀ ev, ev ∈ (ChainKvStore_Get s key value).1.2 → touchesTier ev = false) ∨
      ((ChainKvStore_Get s key value).2.1 = true ∧
       ∃ (n : nat) err, (n < length (chain s))%nat ∧
         EvGet n key (ChainKvStore_Get s key value).1.1.2 true err
           ∈ (ChainKvStore_Get s key value).1.2 ∧
         (∀ j, (j < n)%nat →
               ∃ v e, EvGet j key v false e ∈ (ChainKvStore_Get s key value).1.2) ∧
         (∀ j, (j < n)%nat →
               ∃ e, EvPut j key (ChainKvStore_Get s key value).1.1.2 e
                      ∈ (ChainKvStore_Get s key value).1.2)) ∨
      ((ChainKvStore_Get s key value).2.1 = false ∧
       ∀ j, (j < length (chain s))%nat →
            ∃ v e, EvGet j key v false e ∈ (ChainKvStore_Get s key value).1.2))) ∧
  (∀ keys values,
     (InterfaceToInterfaceSlice keys).2 = None →
     (InterfaceToMapInterfaceInterface values).2 = None →
     (ChainKvStore_GetBatch s keys values).2.2 = None ∧
     ∀ j td out rep e,
       EvGetBatch j td out rep (Some e) ∈ (ChainKvStore_GetBatch s keys values).1.2 →
       Warnf (CouldNotGetBatch j) e ∈ (ChainKvStore_GetBatch s keys values).1.2 ∧
       ∃ out' rep' err',
         EvGetBatch (S j) td out' rep' err'
           ∈ (ChainKvStore_GetBatch s keys values).1.2) ∧
  (∀ key value,
     (ChainKvStore_Put s key value).2 = None ∧
     (∀ j, (j < length (chain s))%nat →
           ∃ e, EvPut j key value e ∈ (ChainKvStore_Put s key value).1.2) ∧
     (∀ j e, EvPut j key value (Some e) ∈ (ChainKvStore_Put s key value).1.2 →
             Warnf (CouldNotPut key j) e ∈ (ChainKvStore_Put s key value).1.2)) ∧
  (∀ values,
     (missingCacheEnabled s = true →
      (InterfaceToMapInterfaceInterface values).2 = None) →
     (ChainKvStore_PutBatch s values).2 = None ∧
     (∀ j, (j < length (chain s))%nat →
           ∃ e, EvPutBatch j values e ∈ (ChainKvStore_PutBatch s values).1.2) ∧
     (∀ j e, EvPutBatch j values (Some e) ∈ (ChainKvStore_PutBatch s values).1.2 →
             Warnf (CouldNotPutBatch j) e ∈ (ChainKvStore_PutBatch s values).1.2)).
Proof.
  intros Hterm. split_and!.
  - intros key. apply Contains_tolerant.
    intros t Ht. by destruct (Hterm t Ht) as (H1 & _).
  - intros key value. apply Get_tolerant.
    intros t Ht v. by destruct (Hterm t Ht) as (_ & H2 & _).
  - intros keys values. by apply GetBatch_tolerant.
  - intros key value. apply Put_tolerant.
    intros t Ht. by destruct (Hterm t Ht) as (_ & _ & _ & H4 & _).
  - intros values. apply PutBatch_tolerant.
    intros t Ht. by destruct (Hterm t Ht) as (_ & _ & _ & _ & H5).
Qed.

End Properties.

(** * The in-memory store honours the contracts *)

#[global] Instance retains_preorder : PreOrder retains.
Proof.
  split.
  - by intros p k.
  - intros p q r Hpq Hqr k Hk. by apply Hqr, Hpq.
Qed.

Lemma populated_payloadSet values key v k :
  populated values k → populated (payloadSet values key v) k.
Proof.
  unfold populated. destruct values as [m|m| |]; simpl; try done.
  - intros Hk. apply lookup_insert_is_Some.
    destruct (decide (key = k)); auto.
  - intros Hk. rewrite (kmap_insert KStr). apply lookup_insert_is_Some.
    destruct (decide (KStr (CastKeyToString key) = k)); auto.
Qed.

Lemma mutated_payloadSet values key v callee :
  mutated (payloadSet values key v) callee = callee → mutated values callee = callee.
Proof. destruct values, callee; simpl; intros Heq; by simplify_eq. Qed.

Lemma mutated_refl values : mutated values values = values.
Proof. by destruct values. Qed.

Lemma MemStore_getChunk_mutated entries keys values :
  mutated values (MemStore_getChunk entries keys values).1
    = (MemStore_getChunk entries keys values).1.
Proof.
  revert values. induction keys as [|key rest IH]; intros values; simpl.
  { apply mutated_refl. }
  destruct (entries !! CastKeyToString key) as [v|].
  - apply (mutated_payloadSet values key v), IH.
  - specialize (IH values).
    by destruct (MemStore_getChunk entries rest values) as [values' missing].
Qed.

Lemma MemStore_getChunk_retains entries keys values :
  retains values (MemStore_getChunk entries keys values).1.
Proof.
  revert values. induction keys as [|key rest IH]; intros values; simpl.
  { done. }
  destruct (entries !! CastKeyToString key) as [v|].
  - intros k Hk. by apply IH, populated_payloadSet.
  - specialize (IH values).
    by destruct (MemStore_getChunk entries rest values) as [values' missing].
Qed.

(** What a store call leaves in the container retains what was there. *)
Lemma MemStore_GetBatch_retains (t : MemStore) todo values :
  retains values (mutated values (GetBatch t todo values).1.1.2).
Proof.
  simpl. unfold MemStore_GetBatch.
  assert (retains values
            (mutated values
               (let '(values', missing) := MemStore_getChunk (entries t) todo values in
                (t, values', missing, @None error)).1.1.2)) as Hgo.
  { pose proof (MemStore_getChunk_mutated (entries t) todo values) as Hmut.
    pose proof (MemStore_getChunk_retains (entries t) todo values) as Hret.
    destruct (MemStore_getChunk (entries t) todo values) as [values' missing].
    simpl in *. by rewrite Hmut. }
  destruct (mode t); [done|done|]. simpl. by rewrite mutated_refl.
Qed.

Lemma MemStore_getChunk_PMap entries keys (m : gmap Key Value) :
  (∀ k, k ∈ (MemStore_getChunk entries keys (PMap m)).2 → k ∈ keys) ∧
  (∀ k, k ∈ keys → k ∉ (MemStore_getChunk entries keys (PMap m)).2 →
        populated (MemStore_getChunk entries keys (PMap m)).1 k).
Proof.
  revert m. induction keys as [|key rest IH]; intros m; simpl.
  { split; [done|]. by intros k ?%elem_of_nil. }
  destruct (entries !! CastKeyToString key) as [v|] eqn:Hkey.
  - destruct (IH (<[key := v]> m)) as [IH1 IH2]. split.
    + intros k Hk. right. by apply IH1.
    + intros k [->|Hin]%elem_of_cons Hnot; [|by apply IH2].
      apply (MemStore_getChunk_retains entries rest (PMap (<[key := v]> m))).
      unfold populated. simpl. by rewrite lookup_insert_eq.
  - destruct (IH m) as [IH1 IH2].
    destruct (MemStore_getChunk entries rest (PMap m)) as [values' missing].
    simpl in *. split.
    + intros k [->|Hin]%elem_of_cons; [left|right; by apply IH1].
    + intros k [->|Hin]%elem_of_cons Hnot.
      * exfalso. apply Hnot. left.
      * apply IH2; [done|]. intros ?. apply Hnot. by right.
Qed.

Lemma MemStore_honours (m0 : gmap Key Value) (t : MemStore) :
  honoursGetBatch (PMap m0) t.
Proof.
  intros todo vs Hkind. split.
  { apply MemStore_GetBatch_retains. }
  destruct vs as [m| | |]; unfold sameKind in Hkind; simpl in Hkind; try done.
  simpl. unfold MemStore_GetBatch.
  pose proof (MemStore_getChunk_mutated (entries t) todo (PMap m)) as Hmut.
  pose proof (MemStore_getChunk_PMap (entries t) todo m) as [Hsub Hpop].
  destruct (mode t); [| |done];
    destruct (MemStore_getChunk (entries t) todo (PMap m)) as [values' missing];
    simpl in *; intros _; rewrite Hmut; by split.
Qed.

Lemma MemStore_getChunk_PStrMap entries keys (m : gmap string Value) :
  ∃ m', (MemStore_getChunk entries keys (PStrMap m)).1 = PStrMap m' ∧
    (∀ k, k ∈ (MemStore_getChunk entries keys (PStrMap m)).2 → k ∈ keys) ∧
    (∀ k, k ∈ keys →
          k ∈ (MemStore_getChunk entries keys (PStrMap m)).2 ∨
          is_Some (m' !! CastKeyToString k)) ∧
    (∀ str, is_Some (m !! str) → is_Some (m' !! str)) ∧
    (∀ str, is_Some (m' !! str) →
            is_Some (m !! str) ∨ ∃ k, k ∈ keys ∧ str = CastKeyToString k).
Proof.
  revert m. induction keys as [|key rest IH]; intros m; simpl.
  { exists m. split_and!; [done|done|by intros k ?%elem_of_nil|done|by left]. }
  destruct (entries !! CastKeyToString key) as [v|] eqn:Hkey.
  - destruct (IH (<[CastKeyToString key := v]> m)) as (m' & Hm' & I1 & I2 & I3 & I4).
    exists m'. split_and!; [done| | | |].
    + intros k Hk. right. by apply I1.
    + intros k [->|Hin]%elem_of_cons; [|by apply I2].
      right. apply I3. by rewrite lookup_insert_eq.
    + intros str Hstr. apply I3. apply lookup_insert_is_Some.
      destruct (decide (CastKeyToString key = str)); auto.
    + intros str [Hstr|(k & Hk & ->)]%I4.
      * apply lookup_insert_is_Some in Hstr as [<-|[_ Hstr]]; [|by left].
        right. exists key. split; [left|done].
      * right. exists k. split; [by right|done].
  - destruct (IH m) as (m' & Hm' & I1 & I2 & I3 & I4).
    destruct (MemStore_getChunk entries rest (PStrMap m)) as [values' missing].
    simpl in *. exists m'. split_and!; [done| | |done|].
    + intros k [->|Hin]%elem_of_cons; [left|right; by apply I1].
    + intros k [->|Hin]%elem_of_cons; [left; left|].
      destruct (I2 k Hin) as [?|?]; [left; by right|by right].
    + intros str [Hstr|(k & Hk & ->)]%I4; [by left|].
      right. exists k. split; [by right|done].
Qed.

Lemma MemStore_honoursLookup (t : MemStore) : honoursLookup t.
Proof.
  intros todo. simpl. unfold MemStore_GetBatch.
  destruct (MemStore_getChunk_PStrMap (entries t) todo ∅)
    as (m' & Hm' & I1 & I2 & _ & I4).
  assert (∀ k', k' ∈ rangeKeys (PStrMap m') ↔ ∃ str, k' = KStr str ∧ is_Some (m' !! str))
    as Hrange.
  { intros k'. rewrite rangeKeys_spec. split.
    - intros (str & m & [= <-] & -> & ?). eauto.
    - intros (str & -> & ?). eauto. }
  destruct (mode t); [| |done];
    destruct (MemStore_getChunk (entries t) todo (PStrMap ∅)) as [values' missing];
    simpl in *; subst values'; simpl; intros _; split_and!; try done.
  - intros k Hk. destruct (I2 k Hk) as [?|?]; [by left|right].
    apply Hrange. eauto.
  - intros k' (str & -> & [Hempty|(k & Hk & ->)]%I4)%Hrange.
    + rewrite lookup_empty in Hempty. by destruct Hempty.
    + eauto.
  - intros k Hk. destruct (I2 k Hk) as [?|?]; [by left|right].
    apply Hrange. eauto.
  - intros k' (str & -> & [Hempty|(k & Hk & ->)]%I4)%Hrange.
    + rewrite lookup_empty in Hempty. by destruct Hempty.
    + eauto.
Qed.

(** * The claims on concrete chains *)

Ltac by_compute := apply (bool_decide_unpack _); vm_compute; exact I.

(** C1 does not hold as stated: values that cannot be read are reported by
    [GetBatch] after both stores were asked, and by [PutBatch] after the store
    was written. *)
Lemma coercion_error_after_store_calls :
  (ChainKvStore_GetBatch (chainS5 false) (PSlice [KStr "c"]) (PScalar VNil)).2
    = ([], Some (Errorf CanNotCastResultValues (External "input is not a map"))) ∧
  EvGetBatch 0 [KStr "c"] (PScalar VNil) [KStr "c"] None
    ∈ (ChainKvStore_GetBatch (chainS5 false) (PSlice [KStr "c"]) (PScalar VNil)).1.2 ∧
  EvGetBatch 1 [KStr "c"] (PScalar VNil) [KStr "c"] None
    ∈ (ChainKvStore_GetBatch (chainS5 false) (PSlice [KStr "c"]) (PScalar VNil)).1.2 ∧
  (ChainKvStore_PutBatch chainNull (PSlice [KStr "a"])).2
    = Some (Errorf CanNotCastValues (External "input is not a map")) ∧
  EvPutBatch 0 (PSlice [KStr "a"]) None
    ∈ (ChainKvStore_PutBatch chainNull (PSlice [KStr "a"])).1.2.
Proof. split_and!; by_compute. Qed.

(** C2 does not hold as stated: the missing-value cache knows key 5, and
    [GetBatch] for the caller's key 5 returns the string ["5"], which is not
    one of the caller's keys, while key 5 itself is neither returned nor
    populated. *)
Lemma GetBatch_cached_key_is_not_the_callers :
  (ChainKvStore_GetBatch chainKnows5 (PSlice [KInt 5]) (PMap ∅)).2
    = ([KStr "5"], None) ∧
  (KStr "5" ∉ [KInt 5]) ∧
  (KInt 5 ∉ (ChainKvStore_GetBatch chainKnows5 (PSlice [KInt 5]) (PMap ∅)).2.1) ∧
  ¬ populated (ChainKvStore_GetBatch chainKnows5 (PSlice [KInt 5]) (PMap ∅)).1.1.2
      (KInt 5).
Proof. split_and!; by_compute. Qed.

(** C4 does not hold as stated: [Put] returns [nil] although the cache
    refused the delete, and the cache still contains the key. *)
Lemma Put_leaves_cached_miss :
  (ChainKvStore_Put chainStuck (KStr "k") (VData 1)).2 = None ∧
  missingCacheEnabled chainStuck = true ∧
  EvPut 0 (KStr "k") (VData 1) None
    ∈ (ChainKvStore_Put chainStuck (KStr "k") (VData 1)).1.2 ∧
  (Contains (missingCache (ChainKvStore_Put chainStuck (KStr "k") (VData 1)).1.1)
     (KStr "k")).1.2 = true.
Proof. split_and!; by_compute. Qed.

(** C7 does not hold as stated: a key asked for twice and found nowhere is
    returned twice. *)
Lemma GetBatch_returns_duplicates :
  (ChainKvStore_GetBatch (chainS5 false) (PSlice [KStr "c"; KStr "c"]) (PMap ∅)).2
    = ([KStr "c"; KStr "c"], None) ∧
  ¬ NoDup (ChainKvStore_GetBatch (chainS5 false) (PSlice [KStr "c"; KStr "c"])
             (PMap ∅)).2.1.
Proof. split_and!; by_compute. Qed.

(** C6 does not hold as stated: ["c"] is in no store, both stores report it
    missing and [GetBatch] returns it as missing, yet the entry the caller's
    container already held for it is written to both stores, the last one
    included. *)
Lemma GetBatch_writes_back_key_found_nowhere :
  (ChainKvStore_GetBatch (chainS5 false) (PSlice [KStr "c"])
     (PMap {[KStr "c" := VData 9]})).2 = ([KStr "c"], None) ∧
  EvGetBatch 0 [KStr "c"] (PMap {[KStr "c" := VData 9]}) [KStr "c"] None
    ∈ (ChainKvStore_GetBatch (chainS5 false) (PSlice [KStr "c"])
         (PMap {[KStr "c" := VData 9]})).1.2 ∧
  EvGetBatch 1 [KStr "c"] (PMap {[KStr "c" := VData 9]}) [KStr "c"] None
    ∈ (ChainKvStore_GetBatch (chainS5 false) (PSlice [KStr "c"])
         (PMap {[KStr "c" := VData 9]})).1.2 ∧
  EvPutBatch 1 (PMap {[KStr "c" := VData 9]}) None
    ∈ (ChainKvStore_GetBatch (chainS5 false) (PSlice [KStr "c"])
         (PMap {[KStr "c" := VData 9]})).1.2 ∧
  EvPutBatch 0 (PMap {[KStr "c" := VData 9]}) None
    ∈ (ChainKvStore_GetBatch (chainS5 false) (PSlice [KStr "c"])
         (PMap {[KStr "c" := VData 9]})).1.2.
Proof. split_and!; by_compute. Qed.

(** C10 does not hold as stated: on the chain without stores, with a
    missing-value cache that knows key 5, [GetBatch] for the caller's key 5
    returns the string ["5"] and not the requested key. *)
Lemma empty_chain_GetBatch_returns_string_form :
  chain chainEmptyKnows5 = [] ∧
  (ChainKvStore_GetBatch chainEmptyKnows5 (PSlice [KInt 5]) (PMap ∅)).2
    = ([KStr "5"], None) ∧
  (KInt 5 ∉ (ChainKvStore_GetBatch chainEmptyKnows5 (PSlice [KInt 5]) (PMap ∅)).2.1).
Proof. split_and!; by_compute. Qed.

(** ** The hypotheses of the theorems hold on concrete chains *)

(** C2 on scenario S5, with the missing-value cache enabled. *)
Lemma GetBatch_missing_and_populated_S5 :
  (∀ k, k ∈ (ChainKvStore_GetBatch (chainS5 true) (PSlice keysABC) (PMap ∅)).2.1 →
        k ∈ keysABC ∨ ∃ k0, k0 ∈ keysABC ∧ k = KStr (CastKeyToString k0)) ∧
  (∀ k, k ∈ keysABC →
        k ∉ (ChainKvStore_GetBatch (chainS5 true) (PSlice keysABC) (PMap ∅)).2.1 →
        KStr (CastKeyToString k)
          ∉ (ChainKvStore_GetBatch (chainS5 true) (PSlice keysABC) (PMap ∅)).2.1 →
        populated (ChainKvStore_GetBatch (chainS5 true) (PSlice keysABC) (PMap ∅)).1.1.2
          k) ∧
  (missingCacheEnabled (chainS5 true) = false →
   (∀ k, k ∈ (ChainKvStore_GetBatch (chainS5 true) (PSlice keysABC) (PMap ∅)).2.1 →
         k ∈ keysABC) ∧
   (∀ k, k ∈ keysABC →
         k ∉ (ChainKvStore_GetBatch (chainS5 true) (PSlice keysABC) (PMap ∅)).2.1 →
         populated
           (ChainKvStore_GetBatch (chainS5 true) (PSlice keysABC) (PMap ∅)).1.1.2 k)).
Proof.
  apply (GetBatch_missing_and_populated (chainS5 true) (PSlice keysABC) (PMap ∅) keysABC);
    [reflexivity| | |by_compute].
  - intros t _. apply MemStore_honours.
  - intros _. split; [by_compute|apply MemStore_honoursLookup].
Defined.

(** C3 on a chain whose first store fails every call: the call is logged,
    the store behind it is still asked or written. *)
Lemma nonterminal_failures_tolerated_mixed :
  terminalSucceeds (chain chainMixed) ∧
  (ChainKvStore_Get chainMixed (KStr "a") VNil).2.2 = None ∧
  Warnf (CouldNotGet (KStr "a") 0) unavailable
    ∈ (ChainKvStore_Get chainMixed (KStr "a") VNil).1.2 ∧
  (ChainKvStore_Put chainMixed (KStr "k") (VData 1)).2 = None ∧
  (∀ j, (j < length (chain chainMixed))%nat →
        ∃ e, EvPut j (KStr "k") (VData 1) e
               ∈ (ChainKvStore_Put chainMixed (KStr "k") (VData 1)).1.2) ∧
  Warnf (CouldNotPut (KStr "k") 0) unavailable
    ∈ (ChainKvStore_Put chainMixed (KStr "k") (VData 1)).1.2.
Proof.
  assert (terminalSucceeds (chain chainMixed)) as Hterm.
  { intros t Ht. simpl in Ht. injection Ht as <-. split_and!; intros; reflexivity. }
  destruct (nonterminal_failures_tolerated chainMixed Hterm)
    as (_ & Hget & _ & Hput & _).
  destruct (Hget (KStr "a") VNil) as (Hgerr & Hgwarn & _).
  destruct (Hput (KStr "k") (VData 1)) as (Hperr & Hpall & Hpwarn).
  split_and!; [done|done| |done|done|].
  - apply (Hgwarn 0%nat VNil false). by_compute.
  - apply Hpwarn. by_compute.
Defined.

(** C4 on scenario S5, with the missing-value cache. *)
Lemma Put_then_invalidate_S5 :
  ∃ writes derr,
    (ChainKvStore_Put (chainS5 true) (KStr "k") (VData 5)).1.2
      = writes ++ EvMissingDelete (KStr "k") derr
                    :: warnIf (CouldNotEraseCachedEmptyValue (KStr "k")) derr ∧
    (∀ ev, ev ∈ writes → touchesMissingCache ev = false) ∧
    (∀ i, (i < length (chain (chainS5 true)))%nat →
          ∃ err, EvPut i (KStr "k") (VData 5) err ∈ writes) ∧
    Delete (missingCache (chainS5 true)) (KStr "k")
      = (missingCache (ChainKvStore_Put (chainS5 true) (KStr "k") (VData 5)).1.1, derr) ∧
    (derr = None →
     (∀ (c c' : MemStore) k, Delete c k = (c', None) → (Contains c' k).1.2 = false) →
     (Contains (missingCache (ChainKvStore_Put (chainS5 true) (KStr "k") (VData 5)).1.1)
        (KStr "k")).1.2 = false).
Proof.
  apply (Put_then_invalidate (chainS5 true) (KStr "k") (VData 5));
    [vm_compute; reflexivity|reflexivity].
Defined.

(** C5 on the flaky chain: the first store fails, the walk goes on with the
    same [todo]. *)
Lemma GetBatch_walk_store_error_flaky :
  [KStr "k"] ≠ [] ∧
  batchWalk 1 0 (chain (chainFlaky false)) [KStr "k"] (PMap ∅) ∅
    = (let '(rest', evs, values', r) :=
         batchWalk 1 1 [memStore [("a", VData 1); ("k", VData 7)] Healthy]
           [KStr "k"] (PMap ∅) (<[0%nat := [KStr "k"]]> ∅) in
       (memStore [("a", VData 1)] Failing :: rest',
        EvGetBatch 0 [KStr "k"] (PMap ∅) [] (Some unavailable)
          :: Warnf (CouldNotGetBatch 0) unavailable :: evs,
        values', r)).
Proof.
  assert ([KStr "k"] ≠ []) as Hne by done.
  assert (GetBatch (memStore [("a", VData 1)] Failing) [KStr "k"] (PMap ∅)
          = (memStore [("a", VData 1)] Failing, PMap ∅, [], Some unavailable)) as Hcall
    by reflexivity.
  split; [done|].
  apply (GetBatch_walk_store_error (T:=MemStore) (C:=MemStore) 1 0
           (memStore [("a", VData 1)] Failing)
           [memStore [("a", VData 1); ("k", VData 7)] Healthy]
           [KStr "k"] (PMap ∅) ∅ (memStore [("a", VData 1)] Failing) (PMap ∅) []
           unavailable Hcall Hne).
  done.
Defined.

(** C6 on scenario S5: the backfill writes ["b"] to the first store, which
    reported it missing, and not ["a"], which it reported present. *)
Lemma GetBatch_backfill_within_refill_S5 :
  ∃ batch, PMap {[KStr "b" := VData 2]} = PMap batch ∧
    (∃ td out rep rerr,
       EvGetBatch 0 td out rep rerr
         ∈ (ChainKvStore_GetBatch (chainS5 false) (PSlice keysABC) (PMap ∅)).1.2) ∧
    ∀ k v, batch !! k = Some v →
      (InterfaceToMapInterfaceInterface
         (ChainKvStore_GetBatch (chainS5 false) (PSlice keysABC) (PMap ∅)).1.1.2).1 !! k
        = Some v ∧
      ∀ td out rep rerr,
        EvGetBatch 0 td out rep rerr
          ∈ (ChainKvStore_GetBatch (chainS5 false) (PSlice keysABC) (PMap ∅)).1.2 →
        k ∈ refillOf td rep rerr.
Proof.
  apply (GetBatch_backfill_within_refill (chainS5 false) (PSlice keysABC) (PMap ∅)
           (ChainKvStore_GetBatch (chainS5 false) (PSlice keysABC) (PMap ∅)).1.1.1
           _ _
           (ChainKvStore_GetBatch (chainS5 false) (PSlice keysABC) (PMap ∅)).2
           0 _ None);
    [vm_compute; reflexivity|by_compute].
Defined.

(** C7 on scenario S5: the result is the [todo] left by the walk. *)
Lemma GetBatch_missing_is_todo_then_cached_S5 :
  (ChainKvStore_GetBatch (chainS5 true) (PSlice keysABC) (PMap ∅)).2.1
    = stillMissing (chainS5 true) (cachedLookup (chainS5 true) keysABC).1.2 (PMap ∅)
        ++ (cachedLookup (chainS5 true) keysABC).2 ∧
  NoDup (cachedLookup (chainS5 true) keysABC).2 ∧
  (NoDup (ChainKvStore_GetBatch (chainS5 true) (PSlice keysABC) (PMap ∅)).2.1 ↔
   NoDup (stillMissing (chainS5 true) (cachedLookup (chainS5 true) keysABC).1.2 (PMap ∅))
   ∧ ∀ k, k ∈ stillMissing (chainS5 true) (cachedLookup (chainS5 true) keysABC).1.2
                (PMap ∅) →
          k ∉ (cachedLookup (chainS5 true) keysABC).2).
Proof.
  apply (GetBatch_missing_is_todo_then_cached (chainS5 true) (PSlice keysABC) (PMap ∅)
           keysABC); [reflexivity|by_compute].
Defined.

(** C8 on the cache that knows key 5: the caller's key 5 comes back as the
    string ["5"]. *)
Lemma GetBatch_cached_missing_are_strings_5 :
  (∃ m, mutated (PStrMap ∅)
          (GetBatch (missingCache chainKnows5) [KInt 5] (PStrMap ∅)).1.1.2 = PStrMap m ∧
        ∀ k, k ∈ (cachedLookup chainKnows5 [KInt 5]).2 ↔
             ∃ str, k = KStr str ∧ is_Some (m !! str)) ∧
  (∀ k, k ∈ (cachedLookup chainKnows5 [KInt 5]).2 →
        k ∈ (ChainKvStore_GetBatch chainKnows5 (PSlice [KInt 5]) (PMap ∅)).2.1) ∧
  ((∀ k, k ∈ [KInt 5] → ∀ str, k ≠ KStr str) →
   ∀ k, k ∈ (cachedLookup chainKnows5 [KInt 5]).2 → k ∉ [KInt 5]).
Proof.
  apply (GetBatch_cached_missing_are_strings chainKnows5 (PSlice [KInt 5]) (PMap ∅)
           [KInt 5]); [reflexivity|reflexivity|by_compute].
Defined.

(** C9 on a chain whose last store is down: ["a"], found by the first
    store, stays in the caller's container. *)
Lemma GetBatch_terminal_failure_keeps_values_down :
  populated (ChainKvStore_GetBatch chainDown (PSlice [KStr "a"; KStr "z"]) (PMap ∅)).1.1.2
    (KStr "a") ∧
  (ChainKvStore_GetBatch chainDown (PSlice [KStr "a"; KStr "z"]) (PMap ∅)).2
    = ([], Some (Errorf (CouldNotGetBatch 1) unavailable)) ∧
  ∀ ev, ev ∈ (ChainKvStore_GetBatch chainDown (PSlice [KStr "a"; KStr "z"])
                (PMap ∅)).1.2 →
        writesTier ev = false ∧ writesMissingCache ev = false.
Proof.
  destruct (GetBatch_terminal_failure_keeps_values retains chainDown
              (PSlice [KStr "a"; KStr "z"]) (PMap ∅)
              (ChainKvStore_GetBatch chainDown (PSlice [KStr "a"; KStr "z"])
                 (PMap ∅)).1.1.1
              (ChainKvStore_GetBatch chainDown (PSlice [KStr "a"; KStr "z"])
                 (PMap ∅)).1.1.2
              (ChainKvStore_GetBatch chainDown (PSlice [KStr "a"; KStr "z"])
                 (PMap ∅)).1.2
              [] 1 unavailable)
    as (_ & _ & _ & _ & Hkept & Hquiet).
  { vm_compute. reflexivity. }
  { intros t _ td vs. apply MemStore_GetBatch_retains. }
  split_and!; [|by_compute|done].
  apply (Hkept 0%nat [KStr "a"; KStr "z"] (PMap {[KStr "a" := VData 1]}) [KStr "z"] None).
  - by_compute.
  - by_compute.
Defined.

(** C10 on the chain without stores, with the missing-value cache: the cache
    learns the key [Contains] was asked for, and all requested keys of
    [GetBatch] come back. *)
Lemma empty_chain_operations_witness :
  chain (chainEmpty true) = [] ∧
  (ChainKvStore_Contains (chainEmpty true) (KStr "k")).2 = (false, None) ∧
  (Contains (missingCache (ChainKvStore_Contains (chainEmpty true) (KStr "k")).1.1)
     (KStr "k")).1.2 = true ∧
  (ChainKvStore_Get (chainEmpty true) (KStr "k") VNil).2 = (false, None) ∧
  (ChainKvStore_Put (chainEmpty true) (KStr "k") (VData 1)).2 = None ∧
  EvMissingDelete (KStr "k") (Delete (missingCache (chainEmpty true)) (KStr "k")).2
    ∈ (ChainKvStore_Put (chainEmpty true) (KStr "k") (VData 1)).1.2 ∧
  (∀ k, k ∈ keysABC →
        k ∈ (ChainKvStore_GetBatch (chainEmpty true) (PSlice keysABC) (PMap ∅)).2.1 ∨
        KStr (CastKeyToString k)
          ∈ (ChainKvStore_GetBatch (chainEmpty true) (PSlice keysABC) (PMap ∅)).2.1).
Proof.
  destruct (empty_chain_operations (chainEmpty true) eq_refl)
    as (Hcontains & Hget & Hput & _ & Hbatch).
  destruct (Hcontains (KStr "k")) as (Hc1 & _ & _ & _ & Hc5).
  destruct (Hget (KStr "k") VNil) as (Hg1 & _).
  destruct (Hput (KStr "k") (VData 1)) as (Hp1 & _ & _ & _ & Hp5).
  destruct (Hbatch (PSlice keysABC) (PMap ∅) keysABC eq_refl eq_refl)
    as (_ & _ & _ & _ & _ & Hb6).
  split_and!; [done|done| |done|done|by apply Hp5|].
  - destruct (Hc5 eq_refl) as [[Hknown _]|(_ & -> & _)]; [by vm_compute in Hknown|].
    by_compute.
  - apply Hb6; [done|by_compute|apply MemStore_honoursLookup].
Defined.
